(** * Autotune algorithm cache (paddle/phi/kernels/autotune/cache.h)

    A shallow embedding of the header's three parts -- the hash combiner
    behind [GetKey], the class template [AlgorithmsCache] and the singleton
    [AutoTuneCache] -- followed by the properties proved about them.

    Conventions of the embedding:
    - [size_t] is a 64-bit unsigned integer: a [Z] reduced by [size_t_wrap];
      [int64_t] is a [Z] reduced by [int64_wrap] (two's complement). For
      the signed type C++ leaves overflow undefined: the properties that
      rest on an increment or a sum of [int64_t] say that it stays within
      the range;
    - [float] is IEEE-754 binary32 and [double] binary64, both as
      [spec_float] with the operations of the standard library's [SpecFloat]
      at (prec, emax) = (24, 128) and (53, 1024);
    - [std::unordered_map] is a [gmap];
    - a member function is a computation in the monad [M S], which threads
      the object's state, may throw, and records the mutex events of
      [std::lock_guard]; a [const] member function is a computation in
      [Const S], which reads the object and records mutex events. *)

From Stdlib Require Import ZArith Lia.
From Stdlib.Floats Require Import SpecFloat.
From stdpp Require Import gmap strings list fin_maps.

Open Scope Z_scope.

(** ** Machine integers *)

Definition size_t_wrap (z : Z) : Z := z mod 2 ^ 64.

Definition INT64_MAX : Z := 2 ^ 63 - 1.
Definition INT64_MIN : Z := - 2 ^ 63.

Definition int64_wrap (z : Z) : Z := (z + 2 ^ 63) mod 2 ^ 64 - 2 ^ 63.

Definition in_int64 (z : Z) : Prop := INT64_MIN <= z <= INT64_MAX.

(** ** Floating point: [float] (binary32) and [double] (binary64) *)

Definition float_zero : spec_float := S754_zero false.

(** [static_cast<float>(n)] for an [int64_t] n: round to nearest even. *)
Definition float_of_int64 (n : Z) : spec_float :=
  binary_normalize 24 128 n 0 false.

Definition float_div (x y : spec_float) : spec_float := SFdiv 24 128 x y.

(** Positive or negative zero. *)
Definition is_zero (x : spec_float) : bool :=
  match x with S754_zero _ => true | _ => false end.

(** The implicit promotion of a [float] operand to [double]; it is exact. *)
Definition double_of_float (x : spec_float) : spec_float :=
  match x with
  | S754_finite s m e => binary_normalize 53 1024 (cond_Zopp s (Zpos m)) e s
  | _ => x
  end.

(** The [double] literal [0.01]: 5764607523034235 * 2^-59. *)
Definition double_0_01 : spec_float :=
  S754_finite false 5764607523034235 (-59).

Definition double_gt (x y : spec_float) : bool := SFltb y x.

(** The values of the type [float]. *)
Definition is_float (x : spec_float) : bool := valid_binary 24 128 x.

(** Whether the number that [x] denotes exceeds 1/100: a finite [x]
    denotes [m * 2^e], with its sign. *)
Definition above_0_01 (x : spec_float) : bool :=
  match x with
  | S754_infinity false => true
  | S754_finite false m e => 2 ^ Z.max 0 (- e) <? 100 * Zpos m * 2 ^ Z.max 0 e
  | _ => false
  end.

(** [float] 0.02, 0.01 and 0.005, each the nearest binary32 value. *)
Definition float_0_02 : spec_float := S754_finite false 10737418 (-29).
Definition float_0_01 : spec_float := S754_finite false 10737418 (-30).
Definition float_0_005 : spec_float := S754_finite false 10737418 (-31).

(** ** Computations with state, exceptions and mutex events *)

Inductive Mutex := cache_mutex_ | autotune_cache_mutex_.

Inductive Event := Acquire (m : Mutex) | Release (m : Mutex).

Inductive Error := PreconditionNotMet (msg : string).

Record Run (S A : Type) := MkRun {
  events : list Event;
  outcome : Error + A;
  final : S
}.
Arguments MkRun {S A}.
Arguments events {S A}.
Arguments outcome {S A}.
Arguments final {S A}.

Definition M (S A : Type) : Type := S → Run S A.

Section Monad.
Context {S : Type}.

#[export] Instance M_ret : MRet (M S) := λ A a s, MkRun [] (inr a) s.

#[export] Instance M_bind : MBind (M S) := λ A B f m s,
  let r := m s in
  match outcome r with
  | inl e => MkRun (events r) (inl e) (final r)
  | inr a => let r' := f a (final r) in
             MkRun (events r ++ events r') (outcome r') (final r')
  end.

#[export] Instance M_throw : MThrow Error (M S) := λ A e s, MkRun [] (inl e) s.

Definition get : M S S := λ s, MkRun [] (inr s) s.
Definition put (s : S) : M S unit := λ _, MkRun [] (inr tt) s.

(** A [std::lock_guard<std::mutex>] on [mu] at the head of a body: the
    mutex is acquired on entry and released when the scope is left,
    whether by return or by exception. *)
Definition lock_guard {A} (mu : Mutex) (body : M S A) : M S A := λ s,
  let r := body s in
  MkRun (Acquire mu :: events r ++ [Release mu]) (outcome r) (final r).

(** Modelled from the spec: the macro [PADDLE_ENFORCE_NE] of
    paddle/phi/core/enforce.h is not part of the sources at hand; by the
    spec it is the generic fail-with-error contract, raising the given
    error when the two operands are equal. *)
Definition PADDLE_ENFORCE_NE {T} `{EqDecision T} (a b : T) (err : Error)
  : M S unit :=
  if decide (a = b) then mthrow err else mret tt.

(** The body of a range-based [for] over the elements [l], threading the
    local variables [b]. *)
Fixpoint for_each {A B} (body : B → A → M S B) (b : B) (l : list A) : M S B :=
  match l with
  | [] => mret b
  | x :: l' => b' ← body b x; for_each body b' l'
  end.
End Monad.

(** [const] member functions: the object is read-only. *)
Definition Const (S A : Type) : Type := S → list Event * A.

Section ConstMonad.
Context {S : Type}.

#[export] Instance Const_ret : MRet (Const S) := λ A a s, ([], a).

#[export] Instance Const_bind : MBind (Const S) := λ A B f m s,
  let r := m s in
  let r' := f r.2 s in
  (r.1 ++ r'.1, r'.2).

Definition this : Const S S := λ s, ([], s).

(** Calling a [const] member function on the object itself. *)
Definition call_const {A} (f : Const S A) : M S A := λ s,
  MkRun (f s).1 (inr (f s).2) s.

(** Calling a [const] member function on another object [obj]. *)
Definition call_const_on {S' A} (obj : S') (f : Const S' A) : M S A := λ s,
  MkRun (f obj).1 (inr (f obj).2) s.
End ConstMonad.


(** ** [std::unordered_map] *)

Section UnorderedMap.
Context {K : Type} `{Countable K} {V : Type}.

(** An iterator is the key of the node it points to; [umap_end] is the
    past-the-end iterator. *)
Definition umap_find (m : gmap K V) (k : K) : option K :=
  match m !! k with Some _ => Some k | None => None end.

Definition umap_end (m : gmap K V) : option K := None.

(** [m[k]]: the mapped value, after inserting a value-initialised one
    when the key is absent. *)
Definition umap_index (dflt : V) (m : gmap K V) (k : K) : V * gmap K V :=
  match m !! k with
  | Some v => (v, m)
  | None => (dflt, <[k := dflt]> m)
  end.

(** [m[k] = v]. *)
Definition umap_assign (dflt : V) (m : gmap K V) (k : K) (v : V) : gmap K V :=
  <[k := v]> (umap_index dflt m k).2.
End UnorderedMap.

(** ** [HashCombine], [std::hash<std::vector<T>>] and [GetKey] *)

Section HashCombine.
(** The scalar argument types, with their [std::hash]. *)
Variable T : Type.
Variable std_hash : T → Z.

(** An argument of [GetKey] is a scalar or a vector of arguments. *)
#[warnings="-register-all"] Inductive Arg :=
  | Scalar (v : T)
  | Vector (vec : list Arg).

(** One instance of the statement
    [seed ^= hasher(v) + 0x9e3779b9 + (seed << 6) + (seed >> 2)] on the
    pointee of [seed], given the value [h] of [hasher(v)]. *)
Definition combine (seed h : Z) : Z :=
  Z.lxor seed
    (size_t_wrap
       (size_t_wrap (size_t_wrap (h + 0x9e3779b9) + size_t_wrap (Z.shiftl seed 6))
        + Z.shiftr seed 2)).

(** [std::hash<T>] for a scalar, the specialisation for a vector. *)
Fixpoint hasher (a : Arg) : Z :=
  match a with
  | Scalar v => size_t_wrap (std_hash v)
  | Vector vec => fold_left (λ seed val, combine seed (hasher val)) vec 0
  end.

(** The variadic [HashCombine(seed, v, rest...)], on the argument pack. *)
Fixpoint HashCombine (seed : Z) (args : list Arg) : Z :=
  match args with
  | [] => seed
  | v :: rest => HashCombine (combine seed (hasher v)) rest
  end.

Definition GetKey (args : list Arg) : Z := HashCombine 0 args.

(** The key as the specification words it: the recurrence
    [seed XOR (hash + 0x9e3779b9 + (seed << 6) + (seed >> 2))] modulo 2^64,
    folded from seed 0 over the arguments from left to right, a vector being
    folded first, from seed 0, into one hash. *)
Definition spec_combine (seed h : Z) : Z :=
  Z.lxor seed ((h + 0x9e3779b9 + Z.shiftl seed 6 + Z.shiftr seed 2) mod 2 ^ 64).

Fixpoint spec_hash (a : Arg) : Z :=
  match a with
  | Scalar v => std_hash v mod 2 ^ 64
  | Vector vec => fold_left (λ seed val, spec_combine seed (spec_hash val)) vec 0
  end.

Definition spec_GetKey (args : list Arg) : Z :=
  fold_left (λ seed a, spec_combine seed (spec_hash a)) args 0.
End HashCombine.

Arguments Scalar {T}.
Arguments Vector {T}.

(** ** [AlgorithmsCache<AlgorithmT>] *)

Module AlgorithmsCache.
Section AlgorithmsCache.
Variable AlgorithmT : Type.
(** The value-initialised [AlgorithmT()]. *)
Variable AlgorithmT_init : AlgorithmT.

Record t := Mk {
  hash_ : gmap Z AlgorithmT;
  cache_hits_ : Z;
  cache_misses_ : Z
}.

(** The constructor: [hash_.clear()], both counters initialised to 0. *)
Definition new : t := Mk ∅ 0 0.

Definition Get (key : Z) : M t AlgorithmT :=
  lock_guard cache_mutex_ (
    c ← get;
    PADDLE_ENFORCE_NE (umap_find (hash_ c) key) (umap_end (hash_ c))
      (PreconditionNotMet "The key does not exist.") ;;
    let '(v, m) := umap_index AlgorithmT_init (hash_ c) key in
    put (Mk m (cache_hits_ c) (cache_misses_ c)) ;;
    mret v).

Definition Find (key : Z) : M t bool :=
  lock_guard cache_mutex_ (
    c ← get;
    if decide (umap_find (hash_ c) key ≠ umap_end (hash_ c)) then
      put (Mk (hash_ c) (int64_wrap (cache_hits_ c + 1)) (cache_misses_ c)) ;;
      mret true
    else
      put (Mk (hash_ c) (cache_hits_ c) (int64_wrap (cache_misses_ c + 1))) ;;
      mret false).

Definition Set_ (key : Z) (algo : AlgorithmT) : M t unit :=
  lock_guard cache_mutex_ (
    c ← get;
    put (Mk (umap_assign AlgorithmT_init (hash_ c) key algo)
            (cache_hits_ c) (cache_misses_ c))).

Definition CacheMisses : Const t Z :=
  c ← this; mret (cache_misses_ c).

Definition CacheHits : Const t Z :=
  c ← this; mret (cache_hits_ c).

Definition CacheHitRate : Const t spec_float :=
  c ← this;
  let num_accesses := int64_wrap (cache_hits_ c + cache_misses_ c) in
  let cache_hit_rate := float_zero in
  if decide (num_accesses ≠ 0) then
    mret (float_div (float_of_int64 (cache_hits_ c))
                    (float_of_int64 num_accesses))
  else mret cache_hit_rate.

Definition Size : Const t Z :=
  c ← this; mret (int64_wrap (Z.of_nat (size (hash_ c)))).

(** The public interface as data: a call of a member function, and what
    it returns. *)
Inductive Op :=
  | OpGet (key : Z)
  | OpFind (key : Z)
  | OpSet (key : Z) (algo : AlgorithmT)
  | OpCacheMisses
  | OpCacheHits
  | OpCacheHitRate
  | OpSize.

Inductive Ret :=
  | RetAlgorithm (algo : AlgorithmT)
  | RetBool (b : bool)
  | RetVoid
  | RetInt64 (n : Z)
  | RetFloat (x : spec_float).

Definition invoke (op : Op) : M t Ret :=
  match op with
  | OpGet key => algo ← Get key; mret (RetAlgorithm algo)
  | OpFind key => b ← Find key; mret (RetBool b)
  | OpSet key algo => Set_ key algo ;; mret RetVoid
  | OpCacheMisses => n ← call_const CacheMisses; mret (RetInt64 n)
  | OpCacheHits => n ← call_const CacheHits; mret (RetInt64 n)
  | OpCacheHitRate => x ← call_const CacheHitRate; mret (RetFloat x)
  | OpSize => n ← call_const Size; mret (RetInt64 n)
  end.

(** The accessors of the statistics. *)
Definition is_accessor (op : Op) : bool :=
  match op with
  | OpCacheMisses | OpCacheHits | OpCacheHitRate | OpSize => true
  | _ => false
  end.
End AlgorithmsCache.

Arguments Mk {AlgorithmT}.
Arguments hash_ {AlgorithmT}.
Arguments cache_hits_ {AlgorithmT}.
Arguments cache_misses_ {AlgorithmT}.
Arguments new {AlgorithmT}.
Arguments Get {AlgorithmT}.
Arguments Find {AlgorithmT}.
Arguments Set_ {AlgorithmT}.
Arguments CacheMisses {AlgorithmT}.
Arguments CacheHits {AlgorithmT}.
Arguments CacheHitRate {AlgorithmT}.
Arguments Size {AlgorithmT}.
Arguments OpGet {AlgorithmT}.
Arguments OpFind {AlgorithmT}.
Arguments OpSet {AlgorithmT}.
Arguments OpCacheMisses {AlgorithmT}.
Arguments OpCacheHits {AlgorithmT}.
Arguments OpCacheHitRate {AlgorithmT}.
Arguments OpSize {AlgorithmT}.
Arguments RetAlgorithm {AlgorithmT}.
Arguments RetBool {AlgorithmT}.
Arguments RetVoid {AlgorithmT}.
Arguments RetInt64 {AlgorithmT}.
Arguments RetFloat {AlgorithmT}.
Arguments invoke {AlgorithmT}.
Arguments is_accessor {AlgorithmT}.

(** The one error of the component. *)
Definition key_not_found : Error :=
  PreconditionNotMet "The key does not exist.".
End AlgorithmsCache.

(** [using AlgorithmsConfigKeyMap = AlgorithmsCache<int64_t>]. *)
Abbreviation AlgorithmsConfigKeyMap := (AlgorithmsCache.t Z).

(** ** [AutoTuneCache] *)

Module AutoTuneCache.
Record t := Mk {
  auto_tune_map_ : gmap string AlgorithmsConfigKeyMap;
  total_cache_hits_ : Z;
  total_cache_misses_ : Z;
  total_size_ : Z
}.

(** The object built by [Instance()] on first use. *)
Definition new : t := Mk ∅ 0 0 0.

Definition set_auto_tune_map_ (r : t) (m : gmap string AlgorithmsConfigKeyMap) : t :=
  Mk m (total_cache_hits_ r) (total_cache_misses_ r) (total_size_ r).

(** An [AlgorithmsConfigKeyMap&] into [auto_tune_map_]: the node it
    designates, by its key. *)
Inductive Ref := RefTo (algo_type : string).

Definition RegisterOrGet (algo_type : string) : M t Ref :=
  lock_guard autotune_cache_mutex_ (
    r ← get;
    (if decide (umap_find (auto_tune_map_ r) algo_type = umap_end (auto_tune_map_ r))
     then
       let cache : AlgorithmsConfigKeyMap := AlgorithmsCache.new in
       put (set_auto_tune_map_ r
              (umap_assign AlgorithmsCache.new (auto_tune_map_ r) algo_type cache))
     else mret tt) ;;
    r ← get;
    put (set_auto_tune_map_ r
           (umap_index AlgorithmsCache.new (auto_tune_map_ r) algo_type).2) ;;
    mret (RefTo algo_type)).

Definition Clean (miss_rate : spec_float) : M t unit :=
  lock_guard autotune_cache_mutex_ (
    if double_gt (double_of_float miss_rate) double_0_01 then
      r ← get; put (set_auto_tune_map_ r ∅)
    else mret tt).

(** The loop visits the families in the order of [map_to_list]; the
    [VLOG] statement of its body calls the same [const] accessors and is
    left out. *)
Definition UpdateStatus : M t unit :=
  r ← get;
  '(size, cache_hits, cache_misses) ←
    for_each (λ '(size, cache_hits, cache_misses) (v : string * AlgorithmsConfigKeyMap),
        s ← call_const_on v.2 AlgorithmsCache.Size;
        h ← call_const_on v.2 AlgorithmsCache.CacheHits;
        m ← call_const_on v.2 AlgorithmsCache.CacheMisses;
        mret (int64_wrap (size + s), int64_wrap (cache_hits + h),
              int64_wrap (cache_misses + m)))
      (0, 0, 0) (map_to_list (auto_tune_map_ r));
  r ← get;
  put (Mk (auto_tune_map_ r) cache_hits cache_misses size).

Definition Size : Const t Z :=
  r ← this; mret (total_size_ r).

Definition CacheHits : Const t Z :=
  r ← this; mret (total_cache_hits_ r).

Definition CacheMisses : Const t Z :=
  r ← this; mret (total_cache_misses_ r).

Definition CacheHitRate : Const t spec_float :=
  r ← this;
  let total_cache_hit_rate := float_zero in
  let total_num_accesses :=
    int64_wrap (total_cache_hits_ r + total_cache_misses_ r) in
  if decide (total_num_accesses ≠ 0) then
    mret (float_div (float_of_int64 (total_cache_hits_ r))
                    (float_of_int64 total_num_accesses))
  else mret total_cache_hit_rate.

(** A member function of the family cache called through a reference
    obtained from [RegisterOrGet]. The reference dangles once its node is
    gone; a call through it is then undefined, [None]. *)
Definition call {A} (ref : Ref) (op : M AlgorithmsConfigKeyMap A)
  : t → option (Run t A) := λ r,
  let 'RefTo algo_type := ref in
  match auto_tune_map_ r !! algo_type with
  | Some c =>
      let run := op c in
      Some (MkRun (events run) (outcome run)
              (set_auto_tune_map_ r (<[algo_type := final run]> (auto_tune_map_ r))))
  | None => None
  end.

(** The public interface as data. *)
Inductive Op :=
  | OpRegisterOrGet (algo_type : string)
  | OpClean (miss_rate : spec_float)
  | OpUpdateStatus
  | OpSize
  | OpCacheHits
  | OpCacheMisses
  | OpCacheHitRate.

Inductive Ret :=
  | RetRef (ref : Ref)
  | RetVoid
  | RetInt64 (n : Z)
  | RetFloat (x : spec_float).

Definition invoke (op : Op) : M t Ret :=
  match op with
  | OpRegisterOrGet algo_type => ref ← RegisterOrGet algo_type; mret (RetRef ref)
  | OpClean miss_rate => Clean miss_rate ;; mret RetVoid
  | OpUpdateStatus => UpdateStatus ;; mret RetVoid
  | OpSize => n ← call_const Size; mret (RetInt64 n)
  | OpCacheHits => n ← call_const CacheHits; mret (RetInt64 n)
  | OpCacheMisses => n ← call_const CacheMisses; mret (RetInt64 n)
  | OpCacheHitRate => x ← call_const CacheHitRate; mret (RetFloat x)
  end.

(** What a client does between two calls of [RegisterOrGet]: any call of
    the registry, and any call of a family cache through a reference. *)
Inductive Action :=
  | ActRegistry (op : Op)
  | ActFamily (ref : Ref) (op : AlgorithmsCache.Op Z).

(** The registry after an action; [None] when the action calls through a
    dangling reference. An exception of [Get] returns to the client, who
    goes on. *)
Definition perform (a : Action) (r : t) : option t :=
  match a with
  | ActRegistry op => Some (final (invoke op r))
  | ActFamily ref op => final <$> call ref (AlgorithmsCache.invoke 0 op) r
  end.

Fixpoint perform_all (h : list Action) (r : t) : option t :=
  match h with
  | [] => Some r
  | a :: h' => r' ← perform a r; perform_all h' r'
  end.

(** Whether an action is a [Clean] that passes the threshold. *)
Definition flushes (a : Action) : bool :=
  match a with
  | ActRegistry (OpClean miss_rate) =>
      double_gt (double_of_float miss_rate) double_0_01
  | _ => false
  end.

(** The calls that a history makes on the family [algo_type], applied in
    order to the cache [c]. *)
Definition replay (algo_type : string) (h : list Action)
    (c : AlgorithmsConfigKeyMap) : AlgorithmsConfigKeyMap :=
  fold_left (λ c a,
    match a with
    | ActFamily (RefTo n) op =>
        if decide (n = algo_type) then final (AlgorithmsCache.invoke 0 op c) else c
    | _ => c
    end) h c.

(** What the four read accessors report. *)
Definition report (r : t) : Z * Z * Z * spec_float :=
  ((Size r).2, (CacheHits r).2, (CacheMisses r).2, (CacheHitRate r).2).

(** The sum of [f] over the registered families. *)
Definition family_sum (f : AlgorithmsConfigKeyMap → Z)
    (m : gmap string AlgorithmsConfigKeyMap) : Z :=
  map_fold (λ _ c acc, f c + acc) 0 m.
End AutoTuneCache.

(** ** Histories of calls *)

(** The cache after the calls of [h], made in order; an exception of [Get]
    returns to the caller, who goes on. *)
Definition run_ops {AlgorithmT} (init : AlgorithmT)
    (h : list (AlgorithmsCache.Op AlgorithmT)) (c : AlgorithmsCache.t AlgorithmT)
  : AlgorithmsCache.t AlgorithmT :=
  fold_left (λ c op, final (AlgorithmsCache.invoke init op c)) h c.

Definition is_Find {AlgorithmT} (op : AlgorithmsCache.Op AlgorithmT) : bool :=
  match op with AlgorithmsCache.OpFind _ => true | _ => false end.

(** The number of calls of [Find] in a history. *)
Definition count_Find {AlgorithmT} (h : list (AlgorithmsCache.Op AlgorithmT)) : Z :=
  Z.of_nat (length (filter (λ op, is_Find op = true) h)).

(** Whether a call is a [Set] of the key [k]. *)
Definition sets_key {AlgorithmT} (k : Z) (op : AlgorithmsCache.Op AlgorithmT) : bool :=
  match op with AlgorithmsCache.OpSet k' _ => bool_decide (k' = k) | _ => false end.

(** The calls of the registry that hold its mutex. *)
Definition takes_registry_lock (op : AutoTuneCache.Op) : bool :=
  match op with
  | AutoTuneCache.OpRegisterOrGet _ | AutoTuneCache.OpClean _ => true
  | _ => false
  end.

(** [float] 1.0. *)
Definition float_one : spec_float := S754_finite false 8388608 (-23).

(** ** Data for the examples *)

(** The events of a member function that holds the mutex of the registry. *)
Definition registry_lock : list Event :=
  [Acquire autotune_cache_mutex_; Release autotune_cache_mutex_].

(** A cache with one entry, hit 3 times and missed 4 times. *)
Definition cache_5_7 : AlgorithmsConfigKeyMap := AlgorithmsCache.Mk {[5 := 7]} 3 4.

(** A registry of two families. *)
Definition two_families : AutoTuneCache.t :=
  AutoTuneCache.Mk {["conv2d"%string := cache_5_7; "matmul"%string := AlgorithmsCache.Mk ∅ 0 1]} 0 0 0.

(** A cache hit 3 times and never missed. *)
Definition cache_no_miss : AlgorithmsConfigKeyMap := AlgorithmsCache.Mk {[5 := 7]} 3 0.

(** The registry of two families with totals left over from earlier. *)
Definition two_families_stale : AutoTuneCache.t :=
  AutoTuneCache.Mk (AutoTuneCache.auto_tune_map_ two_families) 9 9 9.

(** Six calls on one cache, three of them of [Find]. *)
Definition history_calls : list (AlgorithmsCache.Op Z) :=
  [AlgorithmsCache.OpFind 5; AlgorithmsCache.OpSet 9 2; AlgorithmsCache.OpFind 9;
   AlgorithmsCache.OpGet 1; AlgorithmsCache.OpSize; AlgorithmsCache.OpFind 1].

(** Calls after a [Set] of the key 9, none of them a [Set] of 9. *)
Definition history_after_Set : list (AlgorithmsCache.Op Z) :=
  [AlgorithmsCache.OpFind 9; AlgorithmsCache.OpSet 5 8; AlgorithmsCache.OpGet 1].

(** A history on a family "pool2d": a [Set], a [Clean] below the
    threshold, a [Find]. *)
Definition history_pool2d : list AutoTuneCache.Action :=
  [AutoTuneCache.ActFamily (AutoTuneCache.RefTo "pool2d") (AlgorithmsCache.OpSet 1 7);
   AutoTuneCache.ActRegistry (AutoTuneCache.OpClean float_0_005);
   AutoTuneCache.ActFamily (AutoTuneCache.RefTo "pool2d") (AlgorithmsCache.OpFind 1)].

(** A history on a family "conv2d": a [Set], then a [Clean] above the
    threshold. *)
Definition history_flush : list AutoTuneCache.Action :=
  [AutoTuneCache.ActFamily (AutoTuneCache.RefTo "conv2d") (AlgorithmsCache.OpSet 1 7);
   AutoTuneCache.ActRegistry (AutoTuneCache.OpClean float_0_02)].

(** With the hash of an integer being the integer, as in libstdc++. *)
Definition int_hash (n : Z) : Z := n.

(** The key of a convolution: dimensions, strides, paddings, dilations
    and the tag of the data type. *)
Definition conv_key : Z :=
  GetKey Z int_hash
    [Vector [Scalar 1; Scalar 3; Scalar 224; Scalar 224];
     Vector [Scalar 64; Scalar 3; Scalar 3; Scalar 3];
     Vector [Scalar 1; Scalar 1]; Vector [Scalar 0; Scalar 0];
     Vector [Scalar 1; Scalar 1]; Scalar 10].

(** ** Tactics *)

Ltac unfold_run :=
  unfold lock_guard, call_const, call_const_on, PADDLE_ENFORCE_NE, put, get,
    this, mbind, mret, mthrow, M_bind, M_ret, M_throw, Const_bind,
    Const_ret, umap_assign, umap_index, umap_find, umap_end in *;
  simpl in *.

(** * Properties *)

(** ** The monad *)

Section MonadLemmas.
Context {S A B : Type} (m : M S A) (f : A → B) (s : S).

Lemma bind_ret_final : final ((a ← m; mret (f a)) s) = final (m s).
Proof. unfold mbind, M_bind. cbv zeta. by destruct (outcome (m s)). Qed.

Lemma bind_ret_events : events ((a ← m; mret (f a)) s) = events (m s).
Proof.
  unfold mbind, M_bind. cbv zeta. destruct (outcome (m s)); [done |].
  cbn. apply app_nil_r.
Qed.

Lemma bind_ret_outcome :
  outcome ((a ← m; mret (f a)) s) =
    match outcome (m s) with inl e => inl e | inr a => inr (f a) end.
Proof. unfold mbind, M_bind. cbv zeta. by destruct (outcome (m s)). Qed.
End MonadLemmas.

Lemma run_eta {S A} (r : Run S A) : MkRun (events r) (outcome r) (final r) = r.
Proof. by destruct r. Qed.

Lemma bind_get {S B} (f : S → M S B) s : (get ≫= f) s = f s s.
Proof. unfold mbind, M_bind, get. cbn. apply run_eta. Qed.

Lemma bind_returned {S A B} (m : M S A) (f : A → M S B) s a s' :
  m s = MkRun [] (inr a) s' → (m ≫= f) s = f a s'.
Proof. intros Hm. unfold mbind, M_bind. rewrite Hm. cbn. apply run_eta. Qed.

(** ** Rounding to [float] *)

Section Rounding.

Lemma shr_1_m r : 0 <= shr_m r → shr_m (shr_1 r) = shr_m r / 2.
Proof.
  destruct r as [m rb sb]. cbn [shr_m]. intros Hm.
  destruct m as [|p|p]; [reflexivity | | lia].
  destruct p as [p|p|]; cbn [shr_1 shr_m].
  - rewrite Pos2Z.inj_xI. apply Z.div_unique with (r := 1); lia.
  - rewrite Pos2Z.inj_xO. apply Z.div_unique with (r := 0); lia.
  - reflexivity.
Qed.

Lemma pow2_xO q : 2 ^ Zpos q~0 = 2 ^ Zpos q * 2 ^ Zpos q.
Proof. rewrite (Pos2Z.inj_xO q), <- Z.pow_add_r by lia. f_equal. lia. Qed.

Lemma pow2_xI q : 2 ^ Zpos q~1 = 2 * (2 ^ Zpos q * 2 ^ Zpos q).
Proof.
  rewrite (Pos2Z.inj_xI q), <- Z.pow_add_r by lia.
  replace (2 * Zpos q + 1) with (Z.succ (Zpos q + Zpos q)) by lia.
  by rewrite Z.pow_succ_r by lia.
Qed.

Lemma iter_shr_m q r :
  0 <= shr_m r → shr_m (SpecFloat.iter_pos shr_1 q r) = shr_m r / 2 ^ Zpos q.
Proof.
  revert r. induction q as [q IH|q IH|]; intros r Hr; cbn [SpecFloat.iter_pos].
  - assert (H1 : 0 <= shr_m (shr_1 r)).
    { rewrite shr_1_m by done. apply Z.div_pos; lia. }
    assert (H2 : 0 <= shr_m (SpecFloat.iter_pos shr_1 q (shr_1 r))).
    { rewrite IH by done. apply Z.div_pos; lia. }
    rewrite IH, IH, shr_1_m by done.
    rewrite !Z.div_div by lia. by rewrite pow2_xI, Z.mul_assoc.
  - assert (H1 : 0 <= shr_m (SpecFloat.iter_pos shr_1 q r)).
    { rewrite IH by done. apply Z.div_pos; lia. }
    rewrite IH, IH by done.
    rewrite Z.div_div by lia. by rewrite pow2_xO.
  - by apply shr_1_m.
Qed.

Lemma digits2_pos_lower m : 2 ^ (Zpos (digits2_pos m) - 1) <= Zpos m.
Proof.
  induction m as [m IH|m IH|]; cbn [digits2_pos]; [| | done].
  - rewrite Pos2Z.inj_succ, (Pos2Z.inj_xI m).
    replace (Z.succ (Zpos (digits2_pos m)) - 1)
      with (Zpos (digits2_pos m) - 1 + 1) by lia.
    rewrite Z.pow_add_r by lia. lia.
  - rewrite Pos2Z.inj_succ, (Pos2Z.inj_xO m).
    replace (Z.succ (Zpos (digits2_pos m)) - 1)
      with (Zpos (digits2_pos m) - 1 + 1) by lia.
    rewrite Z.pow_add_r by lia. lia.
Qed.

Lemma shr_record_of_loc_m m l : shr_m (shr_record_of_loc m l) = m.
Proof. by destruct l as [|[| |]]. Qed.

(** Above the least exponent, the shift of a rounding step keeps the
    leading bits of the mantissa. *)
Lemma shr_fexp_pos m e l :
  -149 <= e →
  0 < shr_m (shr_fexp 24 128 (Zpos m) e l).1 ∧ -149 <= (shr_fexp 24 128 (Zpos m) e l).2.
Proof.
  intros He. unfold shr_fexp, shr, fexp, emin. cbn [Zdigits2].
  set (d := Zpos (digits2_pos m)).
  pose proof (digits2_pos_lower m) as Hd. fold d in Hd.
  destruct (Z.max (d + e - 24) (3 - 128 - 24) - e) as [|q|q] eqn:Hn;
    cbn [fst snd]; rewrite ?shr_record_of_loc_m; try lia.
  rewrite iter_shr_m by (rewrite shr_record_of_loc_m; lia).
  rewrite shr_record_of_loc_m. split; [| lia].
  apply Z.div_str_pos. split; [lia |].
  eapply Z.le_trans; [| exact Hd].
  apply Z.pow_le_mono_r; lia.
Qed.

Lemma round_nearest_even_pos m l : 0 < m → 0 < round_nearest_even m l.
Proof.
  intros Hm. destruct l as [|[| |]]; cbn [round_nearest_even]; try lia.
  destruct (Z.even m); lia.
Qed.

Lemma binary_round_aux_nonzero s m e l :
  -149 <= e → is_zero (binary_round_aux 24 128 s (Zpos m) e l) = false.
Proof.
  intros He. unfold binary_round_aux.
  destruct (shr_fexp_pos m e l He) as [Hm1 He1].
  destruct (shr_fexp 24 128 (Zpos m) e l) as [mrs1 e1]. cbn [fst snd] in *.
  pose proof (round_nearest_even_pos _ (loc_of_shr_record mrs1) Hm1) as Hr.
  destruct (round_nearest_even (shr_m mrs1) (loc_of_shr_record mrs1))
    as [|m2|m2]; [lia | | lia].
  destruct (shr_fexp_pos m2 e1 loc_Exact He1) as [Hm2 _].
  destruct (shr_fexp 24 128 (Zpos m2) e1 loc_Exact) as [mrs2 e2]. cbn [fst] in *.
  destruct (shr_m mrs2) as [|m3|m3]; [lia | | lia].
  by destruct (Z.leb _ _).
Qed.

(** The conversion of a nonzero integer is not a zero. *)
Lemma float_of_int64_nonzero n : n ≠ 0 → is_zero (float_of_int64 n) = false.
Proof.
  intros Hn. unfold float_of_int64, binary_normalize, binary_round.
  assert (Hal : ∀ p, -149 <= (shl_align p 0 (fexp 24 128 (Zpos (digits2_pos p) + 0))).2).
  { intros p. unfold shl_align, fexp, emin.
    destruct (Z.max _ _ - 0) eqn:Hd; cbn [snd]; lia. }
  destruct n as [|p|p]; [done | |].
  - specialize (Hal p). destruct (shl_align _ _ _) as [mz ez].
    by apply binary_round_aux_nonzero.
  - specialize (Hal p). destruct (shl_align _ _ _) as [mz ez].
    by apply binary_round_aux_nonzero.
Qed.
End Rounding.

(** ** The threshold of [Clean] *)

Section Threshold.

Lemma iter_xO_value m p : Zpos (Pos.iter xO m p) = Zpos m * 2 ^ Zpos p.
Proof.
  induction p as [|p IH] using Pos.peano_ind.
  - cbn [Pos.iter]. rewrite (Pos2Z.inj_xO m). change (2 ^ 1) with 2. lia.
  - rewrite Pos.iter_succ, (Pos2Z.inj_xO (Pos.iter xO m p)), IH.
    rewrite Pos2Z.inj_succ, Z.pow_succ_r by lia. lia.
Qed.

Lemma iter_xO_digits m p :
  digits2_pos (Pos.iter xO m p) = (digits2_pos m + p)%positive.
Proof.
  induction p as [|p IH] using Pos.peano_ind.
  - cbn [Pos.iter digits2_pos]. lia.
  - rewrite Pos.iter_succ. cbn [digits2_pos]. rewrite IH. lia.
Qed.

Lemma digits2_pos_upper m : Zpos m < 2 ^ Zpos (digits2_pos m).
Proof.
  induction m as [m IH|m IH|]; cbn [digits2_pos]; [| | done].
  - rewrite Pos2Z.inj_succ, (Pos2Z.inj_xI m), Z.pow_succ_r by lia. lia.
  - rewrite Pos2Z.inj_succ, (Pos2Z.inj_xO m), Z.pow_succ_r by lia. lia.
Qed.

(** What [is_float] says of a finite value. *)
Lemma is_float_finite s m e :
  is_float (S754_finite s m e) = true →
  Zpos (digits2_pos m) <= 24 ∧ -149 <= e <= 104.
Proof.
  unfold is_float, valid_binary, bounded, canonical_mantissa, fexp, emin.
  intros [Hc He]%andb_prop. apply Z.eqb_eq in Hc. apply Z.leb_le in He. lia.
Qed.

(** The promotion keeps the value and aligns the mantissa on 53 bits. *)
Lemma double_of_float_finite s m e :
  is_float (S754_finite s m e) = true →
  double_of_float (S754_finite s m e) =
    S754_finite s (Pos.iter xO m (Z.to_pos (53 - Zpos (digits2_pos m))))
      (e - (53 - Zpos (digits2_pos m))).
Proof.
  intros [Hd He]%is_float_finite.
  set (d := Zpos (digits2_pos m)) in *.
  set (q := Z.to_pos (53 - d)).
  assert (Hq : Zpos q = 53 - d) by (unfold q; rewrite Z2Pos.id; lia).
  assert (Hround : binary_round 53 1024 s m e = S754_finite s (Pos.iter xO m q) (e - (53 - d))).
  { unfold binary_round, shl_align. fold d.
    assert (Hf : fexp 53 1024 (d + e) = d + e - 53) by (unfold fexp, emin; lia).
    rewrite Hf.
    replace (d + e - 53 - e) with (Zneg q) by (rewrite <- Pos2Z.opp_pos; lia).
    unfold binary_round_aux, shr_fexp. cbn [Zdigits2].
    rewrite iter_xO_digits, Pos2Z.inj_add. fold d. rewrite Hq.
    assert (Hf' : fexp 53 1024 (d + (53 - d) + (d + e - 53)) - (d + e - 53) = 0)
      by (unfold fexp, emin; lia).
    rewrite Hf'. cbn [shr shr_record_of_loc shr_m loc_of_shr_record round_nearest_even Zdigits2].
    rewrite iter_xO_digits, Pos2Z.inj_add. fold d. rewrite Hq, Hf'.
    cbn [shr shr_record_of_loc shr_m].
    replace (d + e - 53 <=? 1024 - 53) with true by (symmetry; apply Z.leb_le; lia).
    f_equal. lia. }
  unfold double_of_float, binary_normalize. by destruct s.
Qed.

Lemma pow2_pred n : 0 < n → 2 ^ n = 2 * 2 ^ (n - 1).
Proof.
  intros Hn. rewrite <- (Z.pow_succ_r 2 (n - 1)) by lia. f_equal. lia.
Qed.

(** On the values of [float], the comparison made by [Clean] says whether
    the rate exceeds 1/100. *)
Lemma double_gt_above x :
  is_float x = true →
  double_gt (double_of_float x) double_0_01 = above_0_01 x.
Proof.
  intros Hx. destruct x as [s|s| |s m e]; [by destruct s | by destruct s | done |].
  rewrite double_of_float_finite by done.
  destruct (is_float_finite _ _ _ Hx) as [Hd He].
  pose proof (digits2_pos_lower m) as Hlo.
  pose proof (digits2_pos_upper m) as Hup.
  set (d := Zpos (digits2_pos m)) in *.
  assert (Hd1 : 1 <= d) by (unfold d; lia).
  set (q := Z.to_pos (53 - d)).
  assert (Hq : Zpos q = 53 - d) by (unfold q; rewrite Z2Pos.id; lia).
  pose proof (iter_xO_value m q) as Hmz. rewrite Hq in Hmz.
  set (mz := Pos.iter xO m q) in *.
  unfold double_gt, SFltb, SFcompare, double_0_01, above_0_01.
  destruct s; [done |].
  assert (Hpow : 2 ^ d = 2 * 2 ^ (d - 1)) by (apply pow2_pred; lia).
  destruct (Z.compare_spec (-59) (e - (53 - d))) as [Heq | Hlt | Hgt].
  - (* the exponent of 0.01: the mantissas decide *)
    assert (He' : e = - (6 + d)) by lia. subst e.
    rewrite (Z.max_r 0 (- - (6 + d))), (Z.max_l 0 (- (6 + d))) by lia.
    rewrite Z.opp_involutive, Z.mul_1_r.
    assert (Hsplit : 2 ^ (6 + d) * 2 ^ (53 - d) = 2 ^ 59).
    { rewrite <- Z.pow_add_r by lia. f_equal. lia. }
    assert (Heven : 2 ^ (53 - d) = 2 * 2 ^ (52 - d)).
    { rewrite (pow2_pred (53 - d)) by lia. do 2 f_equal. lia. }
    assert (HP : 0 < 2 ^ (52 - d)) by (apply Z.pow_pos_nonneg; lia).
    assert (HA : 0 < 2 ^ (6 + d)) by (apply Z.pow_pos_nonneg; lia).
    change (2 ^ 59) with 576460752303423488 in Hsplit.
    set (P := 2 ^ (52 - d)) in *. set (A := 2 ^ (6 + d)) in *.
    rewrite Heven in Hmz, Hsplit.
    change (Pos.compare_cont Eq 5764607523034235 mz)
      with (5764607523034235 ?= mz)%positive.
    rewrite Pos2Z.inj_compare.
    destruct (Z.compare_spec 5764607523034235 (Zpos mz)) as [Hc | Hc | Hc];
      symmetry.
    + lia.
    + apply Z.ltb_lt. nia.
    + apply Z.ltb_ge. nia.
  - symmetry. apply Z.ltb_lt.
    destruct (Z.le_gt_cases 0 e) as [He0 | He0].
    + rewrite (Z.max_l 0 (- e)), (Z.max_r 0 e) by lia. change (2 ^ 0) with 1.
      assert (1 <= 2 ^ e) by (apply Z.pow_le_mono_r with (b := 0); lia). nia.
    + rewrite (Z.max_r 0 (- e)), (Z.max_l 0 e), Z.mul_1_r by lia.
      assert (2 ^ (- e) <= 2 ^ (5 + d)) by (apply Z.pow_le_mono_r; lia).
      assert (2 ^ (5 + d) = 64 * 2 ^ (d - 1)).
      { replace (5 + d) with (6 + (d - 1)) by lia. by rewrite Z.pow_add_r by lia. }
      lia.
  - symmetry. apply Z.ltb_ge.
    rewrite (Z.max_r 0 (- e)), (Z.max_l 0 e), Z.mul_1_r by lia.
    assert (2 ^ (7 + d) <= 2 ^ (- e)) by (apply Z.pow_le_mono_r; lia).
    assert (2 ^ (7 + d) = 128 * 2 ^ d) by (by rewrite Z.pow_add_r by lia).
    lia.
Qed.
End Threshold.

(** ** The key of a configuration *)

Section Keys.
Context {T : Type} (std_hash : T → Z).

Lemma combine_spec seed h : combine seed (size_t_wrap h) = spec_combine seed h.
Proof.
  unfold combine, spec_combine, size_t_wrap. f_equal.
  set (N := 2 ^ 64). set (s6 := Z.shiftl seed 6). set (s2 := Z.shiftr seed 2).
  rewrite Zplus_mod_idemp_l.
  rewrite <- !Z.add_assoc, Zplus_mod_idemp_l.
  rewrite <- !Z.add_assoc, Zplus_mod_idemp_l.
  replace (h + (2654435769 + (s6 mod N + s2)))
    with (h + 2654435769 + s2 + s6 mod N) by lia.
  rewrite Zplus_mod_idemp_r. f_equal. lia.
Qed.

Lemma size_t_wrap_idemp z : size_t_wrap (size_t_wrap z) = size_t_wrap z.
Proof. unfold size_t_wrap. apply Zmod_mod. Qed.

Lemma size_t_wrap_small z : 0 <= z < 2 ^ 64 → size_t_wrap z = z.
Proof. unfold size_t_wrap. apply Z.mod_small. Qed.

Lemma size_t_wrap_range z : 0 <= size_t_wrap z < 2 ^ 64.
Proof. unfold size_t_wrap. apply Z.mod_pos_bound. lia. Qed.

Lemma lxor_size_t a b :
  0 <= a < 2 ^ 64 → 0 <= b < 2 ^ 64 → 0 <= Z.lxor a b < 2 ^ 64.
Proof.
  intros Ha Hb.
  assert (Hnn : 0 <= Z.lxor a b) by (apply Z.lxor_nonneg; lia).
  split; [done |].
  destruct (Z.eq_dec (Z.lxor a b) 0) as [-> | Hne]; [lia |].
  apply Z.log2_lt_pow2; [lia |].
  eapply Z.le_lt_trans; [apply Z.log2_lxor; lia |].
  apply Z.max_lub_lt.
  - destruct (Z.eq_dec a 0) as [-> | ?]; [done | apply Z.log2_lt_pow2; lia].
  - destruct (Z.eq_dec b 0) as [-> | ?]; [done | apply Z.log2_lt_pow2; lia].
Qed.

Lemma combine_range seed h :
  0 <= seed < 2 ^ 64 → 0 <= combine seed h < 2 ^ 64.
Proof. intros Hs. apply lxor_size_t; [done | apply size_t_wrap_range]. Qed.

(** Induction on an argument, with the hypothesis for every element of a
    vector. *)
Lemma Arg_nested_ind (P : Arg T → Prop) :
  (∀ v, P (Scalar v)) →
  (∀ vec, Forall P vec → P (Vector vec)) →
  ∀ a, P a.
Proof.
  intros HS HV. fix IH 1. intros [v | vec]; [apply HS |].
  apply HV. induction vec as [|a vec IHvec]; constructor; [apply IH | apply IHvec].
Qed.

Lemma fold_left_ext_Forall {A B} (f g : B → A → B) (P : A → Prop) l b :
  Forall P l → (∀ b x, P x → f b x = g b x) → fold_left f l b = fold_left g l b.
Proof.
  intros Hl Hfg. revert b. induction Hl as [|x l Hx Hl IH]; intros b; [done |].
  cbn. rewrite Hfg by done. apply IH.
Qed.

Lemma hasher_range a : 0 <= hasher T std_hash a < 2 ^ 64.
Proof.
  induction a as [v | vec IH] using Arg_nested_ind; cbn [hasher].
  - apply size_t_wrap_range.
  - assert (Hgen : ∀ seed, 0 <= seed < 2 ^ 64 →
      0 <= fold_left (λ seed val, combine seed (hasher T std_hash val)) vec seed < 2 ^ 64).
    { clear IH. induction vec as [|x vec IHvec]; intros seed Hseed; [done |].
      cbn. apply IHvec. by apply combine_range. }
    apply Hgen. lia.
Qed.

Lemma hasher_spec a : hasher T std_hash a = spec_hash T std_hash a.
Proof.
  induction a as [v | vec IH] using Arg_nested_ind; cbn [hasher spec_hash]; [done |].
  apply (fold_left_ext_Forall _ _ _ _ _ IH). intros seed x Hx.
  rewrite <- Hx, <- combine_spec.
  by rewrite size_t_wrap_small by apply hasher_range.
Qed.

Lemma HashCombine_fold seed args :
  HashCombine T std_hash seed args =
    fold_left (λ seed a, combine seed (hasher T std_hash a)) args seed.
Proof. revert seed. induction args as [|a args IH]; intros seed; [done | apply IH]. Qed.

(** The call [HashCombine(&seed, val)] in the loop of the vector hash is
    one step of the recurrence. *)
Lemma HashCombine_one seed val :
  HashCombine T std_hash seed [val] = combine seed (hasher T std_hash val).
Proof. reflexivity. Qed.

(** C3. [GetKey] is the fold, from seed 0 and left to right over the
    arguments, of [seed XOR (hash + 0x9e3779b9 + (seed << 6) + (seed >> 2))]
    in 64-bit unsigned arithmetic, the hash of a vector being the same fold
    over its elements from seed 0; the key is a 64-bit value. *)
Theorem GetKey_folds (args : list (Arg T)) :
  GetKey T std_hash args = spec_GetKey T std_hash args ∧
  0 <= GetKey T std_hash args < 2 ^ 64.
Proof.
  unfold GetKey, spec_GetKey. rewrite HashCombine_fold. split.
  - apply (fold_left_ext_Forall _ _ (λ _, True)); [by apply Forall_true |].
    intros seed a _. rewrite <- hasher_spec, <- combine_spec.
    by rewrite size_t_wrap_small by apply hasher_range.
  - assert (Hgen : ∀ seed, 0 <= seed < 2 ^ 64 →
      0 <= fold_left (λ seed a, combine seed (hasher T std_hash a)) args seed < 2 ^ 64).
    { induction args as [|x l IHl]; intros seed Hseed; [done |].
      cbn. apply IHl. by apply combine_range. }
    apply Hgen. lia.
Qed.
End Keys.

(** ** Running the member functions of [AlgorithmsCache] *)

Section CacheRuns.
Context {AlgorithmT : Type} (init : AlgorithmT).
Implicit Types (c : AlgorithmsCache.t AlgorithmT) (k : Z) (v : AlgorithmT).
Import AlgorithmsCache.

Lemma Get_present c k v :
  hash_ c !! k = Some v →
  Get init k c = MkRun [Acquire cache_mutex_; Release cache_mutex_] (inr v) c.
Proof.
  intros Hk. destruct c as [m h ms]; simpl in Hk.
  unfold Get; unfold_run. rewrite Hk. simpl. reflexivity.
Qed.

Lemma Get_absent c k :
  hash_ c !! k = None →
  Get init k c =
    MkRun [Acquire cache_mutex_; Release cache_mutex_] (inl key_not_found) c.
Proof.
  intros Hk. destruct c as [m h ms]; simpl in Hk.
  unfold Get; unfold_run. rewrite Hk. simpl. reflexivity.
Qed.

Lemma Find_present c k :
  is_Some (hash_ c !! k) →
  Find k c =
    MkRun [Acquire cache_mutex_; Release cache_mutex_] (inr true)
      (Mk (hash_ c) (int64_wrap (cache_hits_ c + 1)) (cache_misses_ c)).
Proof.
  intros [v Hk]. unfold Find; unfold_run. rewrite Hk.
  destruct (decide _) as [_|Hn]; [reflexivity | exfalso; apply Hn; discriminate].
Qed.

Lemma Find_absent c k :
  hash_ c !! k = None →
  Find k c =
    MkRun [Acquire cache_mutex_; Release cache_mutex_] (inr false)
      (Mk (hash_ c) (cache_hits_ c) (int64_wrap (cache_misses_ c + 1))).
Proof.
  intros Hk. unfold Find; unfold_run. rewrite Hk.
  destruct (decide _) as [Hn|_]; [exfalso; apply Hn; reflexivity | reflexivity].
Qed.

Lemma Set_run c k v :
  Set_ init k v c =
    MkRun [Acquire cache_mutex_; Release cache_mutex_] (inr tt)
      (Mk (<[k := v]> (hash_ c)) (cache_hits_ c) (cache_misses_ c)).
Proof.
  unfold Set_; unfold_run. destruct (hash_ c !! k); simpl;
    [reflexivity | by rewrite insert_insert_eq].
Qed.

Lemma Size_value c : (Size c).2 = int64_wrap (Z.of_nat (size (hash_ c))).
Proof. reflexivity. Qed.

Lemma CacheHits_value c : (CacheHits c).2 = cache_hits_ c.
Proof. reflexivity. Qed.

Lemma CacheMisses_value c : (CacheMisses c).2 = cache_misses_ c.
Proof. reflexivity. Qed.

Lemma int64_wrap_id z : in_int64 z → int64_wrap z = z.
Proof.
  unfold in_int64, INT64_MIN, INT64_MAX, int64_wrap. intros Hz.
  rewrite Z.mod_small; lia.
Qed.

Lemma int64_wrap_range z : in_int64 (int64_wrap z).
Proof.
  unfold in_int64, INT64_MIN, INT64_MAX, int64_wrap.
  pose proof (Z.mod_pos_bound (z + 2 ^ 63) (2 ^ 64)). lia.
Qed.

Lemma int64_wrap_succ z :
  INT64_MIN <= z < INT64_MAX → int64_wrap (z + 1) = z + 1.
Proof.
  intros Hz. apply int64_wrap_id. unfold in_int64, INT64_MIN, INT64_MAX in *. lia.
Qed.

(** An accessor leaves the cache as it was. *)
Lemma invoke_accessor_final (op : Op AlgorithmT) c :
  is_accessor op = true → final (invoke init op c) = c.
Proof. destruct op; simpl; intros; try discriminate; reflexivity. Qed.

Lemma Set_then_lookup c k v :
  let c1 := final (Set_ init k v c) in
  outcome (Find k c1) = inr true ∧
  outcome (Get init k c1) = inr v ∧
  hash_ (final (Find k c1)) !! k = Some v.
Proof.
  cbv zeta. rewrite Set_run. cbn [final].
  set (c1 := Mk _ _ _).
  assert (H1 : hash_ c1 !! k = Some v) by apply lookup_insert_eq.
  rewrite (Find_present c1 k) by (rewrite H1; eauto).
  rewrite (Get_present c1 k v H1). cbn [final outcome hash_].
  done.
Qed.

(** C2. Provided neither counter is at the end of the [int64_t] range,
    [Find(k)] on an absent [k] adds exactly 1 to the miss counter and
    leaves the hit counter alone, [Find(k)] on a present [k] adds exactly
    1 to the hit counter and leaves the miss counter alone, [Get] and [Set]
    change neither counter, and no operation decreases a counter. *)
Theorem Find_counts c k :
  INT64_MIN <= cache_hits_ c < INT64_MAX →
  INT64_MIN <= cache_misses_ c < INT64_MAX →
  (hash_ c !! k = None →
     cache_misses_ (final (Find k c)) = cache_misses_ c + 1 ∧
     cache_hits_ (final (Find k c)) = cache_hits_ c) ∧
  (is_Some (hash_ c !! k) →
     cache_hits_ (final (Find k c)) = cache_hits_ c + 1 ∧
     cache_misses_ (final (Find k c)) = cache_misses_ c) ∧
  (cache_hits_ (final (Get init k c)) = cache_hits_ c ∧
   cache_misses_ (final (Get init k c)) = cache_misses_ c) ∧
  (∀ v, cache_hits_ (final (Set_ init k v c)) = cache_hits_ c ∧
        cache_misses_ (final (Set_ init k v c)) = cache_misses_ c) ∧
  (∀ op, cache_hits_ c <= cache_hits_ (final (invoke init op c)) ∧
         cache_misses_ c <= cache_misses_ (final (invoke init op c))).
Proof.
  intros Hh Hm.
  assert (HF : ∀ k', (hash_ c !! k' = None →
             cache_misses_ (final (Find k' c)) = cache_misses_ c + 1 ∧
             cache_hits_ (final (Find k' c)) = cache_hits_ c) ∧
          (is_Some (hash_ c !! k') →
             cache_hits_ (final (Find k' c)) = cache_hits_ c + 1 ∧
             cache_misses_ (final (Find k' c)) = cache_misses_ c)).
  { intros k'. split; intros Hk.
    - rewrite Find_absent by done. cbn. by rewrite int64_wrap_succ.
    - rewrite Find_present by done. cbn. by rewrite int64_wrap_succ. }
  assert (HG : ∀ k', final (Get init k' c) = c).
  { intros k'. destruct (hash_ c !! k') as [v|] eqn:Hk.
    - by rewrite (Get_present c k' v).
    - by rewrite Get_absent. }
  split; [apply HF | split; [apply HF | split; [by rewrite HG | split]]].
  - intros v. by rewrite Set_run.
  - intros op. destruct op as [k'|k'|k' v| | | |]; cbn [invoke].
    + rewrite bind_ret_final, HG. lia.
    + destruct (HF k') as [Ha Hp]. rewrite bind_ret_final.
      destruct (hash_ c !! k') as [v|] eqn:Hk.
      * destruct Hp as [-> ->]; [eauto | lia].
      * destruct Ha as [-> ->]; [done | lia].
    + rewrite (bind_ret_final _ (λ _, RetVoid)), Set_run. cbn. lia.
    + rewrite bind_ret_final. unfold call_const. cbn [final]. lia.
    + rewrite bind_ret_final. unfold call_const. cbn [final]. lia.
    + rewrite bind_ret_final. unfold call_const. cbn [final]. lia.
    + rewrite bind_ret_final. unfold call_const. cbn [final]. lia.
Qed.

(** C6. The last [Set] of a key wins, a [Set] of a key already present
    leaves [Size()] as it was, and a [Set] of a fresh key adds exactly 1 to
    [Size()], the entries being fewer than [INT64_MAX]. *)
Theorem Set_overwrites c k v1 v2 :
  Z.of_nat (size (hash_ c)) < INT64_MAX →
  let c1 := final (Set_ init k v1 c) in
  let c2 := final (Set_ init k v2 c1) in
  outcome (Get init k c2) = inr v2 ∧
  (Size c2).2 = (Size c1).2 ∧
  (is_Some (hash_ c !! k) → (Size c1).2 = (Size c).2) ∧
  (hash_ c !! k = None → (Size c1).2 = (Size c).2 + 1).
Proof.
  intros Hsz. cbv zeta. rewrite !Set_run. cbn [final hash_].
  split; [| split; [| split]].
  - erewrite Get_present; [reflexivity |]. cbn. apply lookup_insert_eq.
  - rewrite !Size_value. cbn [hash_].
    rewrite (map_size_insert_Some k v2); [done |].
    rewrite lookup_insert_eq. eauto.
  - intros [v Hk]. rewrite !Size_value. cbn [hash_].
    rewrite (map_size_insert_Some k v1); [done | by rewrite Hk].
  - intros Hk. rewrite !Size_value. cbn [hash_].
    rewrite (map_size_insert_None k v1 _ Hk).
    rewrite Nat2Z.inj_succ, <- Z.add_1_r.
    rewrite !int64_wrap_id; [reflexivity | |];
      unfold in_int64, INT64_MIN, INT64_MAX in *; lia.
Qed.
End CacheRuns.

(** ** Running the member functions of [AutoTuneCache] *)

Lemma int64_wrap_add_l a b : int64_wrap (int64_wrap a + b) = int64_wrap (a + b).
Proof.
  unfold int64_wrap. f_equal.
  replace ((a + 2 ^ 63) mod 2 ^ 64 - 2 ^ 63 + b + 2 ^ 63)
    with ((a + 2 ^ 63) mod 2 ^ 64 + b) by lia.
  rewrite Zplus_mod_idemp_l. f_equal. lia.
Qed.

Lemma for_each_pure {S A B} (body : B → A → M S B) (g : B → A → B) l b s :
  (∀ b x s, body b x s = MkRun [] (inr (g b x)) s) →
  for_each body b l s = MkRun [] (inr (fold_left g l b)) s.
Proof.
  intros Hbody. revert b. induction l as [|x l IH]; intros b; [reflexivity |].
  cbn [for_each fold_left]. unfold mbind, M_bind. cbv zeta.
  rewrite Hbody. cbn [outcome final events]. rewrite IH. reflexivity.
Qed.

Section RegistryRuns.
Import AutoTuneCache.
Implicit Types (r : AutoTuneCache.t) (algo_type : string).

Lemma RegisterOrGet_known r algo_type :
  is_Some (auto_tune_map_ r !! algo_type) →
  RegisterOrGet algo_type r = MkRun registry_lock (inr (RefTo algo_type)) r.
Proof.
  intros [c Hc]. destruct r as [m h ms sz]; cbn in Hc.
  unfold RegisterOrGet; unfold_run. rewrite Hc.
  destruct (decide _) as [|_]; [discriminate |]. cbn.
  rewrite Hc. reflexivity.
Qed.

Lemma RegisterOrGet_fresh r algo_type :
  auto_tune_map_ r !! algo_type = None →
  RegisterOrGet algo_type r =
    MkRun registry_lock (inr (RefTo algo_type))
      (set_auto_tune_map_ r (<[algo_type := AlgorithmsCache.new]> (auto_tune_map_ r))).
Proof.
  intros Hc. destruct r as [m h ms sz]; cbn in Hc.
  unfold RegisterOrGet; unfold_run. rewrite Hc.
  destruct (decide _) as [_|Hn]; [| by destruct Hn]. cbn.
  rewrite insert_insert_eq, lookup_insert_eq. reflexivity.
Qed.

Lemma Clean_above r miss_rate :
  double_gt (double_of_float miss_rate) double_0_01 = true →
  Clean miss_rate r = MkRun registry_lock (inr tt) (set_auto_tune_map_ r ∅).
Proof. intros Hgt. unfold Clean; unfold_run. rewrite Hgt. reflexivity. Qed.

Lemma Clean_below r miss_rate :
  double_gt (double_of_float miss_rate) double_0_01 = false →
  Clean miss_rate r = MkRun registry_lock (inr tt) r.
Proof. intros Hgt. unfold Clean; unfold_run. rewrite Hgt. reflexivity. Qed.

(** The accumulation of one counter by the loop of [UpdateStatus]. *)
Lemma accumulate_sum {A} (f : A → Z) (l : list A) (a : Z) :
  in_int64 a →
  fold_left (λ acc x, int64_wrap (acc + f x)) l a =
    int64_wrap (a + foldr (λ x acc, f x + acc) 0 l).
Proof.
  revert a. induction l as [|x l IH]; intros a Ha; cbn [fold_left foldr].
  - rewrite Z.add_0_r. symmetry. by apply int64_wrap_id.
  - rewrite IH by apply int64_wrap_range.
    rewrite int64_wrap_add_l. f_equal. lia.
Qed.

(** The order in which the loop visits the families does not matter. *)
Lemma accumulate_sum_perm {A} (f : A → Z) (l l' : list A) (a : Z) :
  in_int64 a → l ≡ₚ l' →
  fold_left (λ acc x, int64_wrap (acc + f x)) l a =
    fold_left (λ acc x, int64_wrap (acc + f x)) l' a.
Proof.
  intros Ha Hperm. rewrite !accumulate_sum by done. do 2 f_equal.
  apply (foldr_permutation (=) (λ x acc, f x + acc) 0); [| done].
  intros. lia.
Qed.

Lemma accumulate_triple {A} (f g h : A → Z) (l : list A) (a b c : Z) :
  fold_left (λ '(x, y, z) v,
      (int64_wrap (x + f v), int64_wrap (y + g v), int64_wrap (z + h v))) l (a, b, c) =
  (fold_left (λ acc v, int64_wrap (acc + f v)) l a,
   fold_left (λ acc v, int64_wrap (acc + g v)) l b,
   fold_left (λ acc v, int64_wrap (acc + h v)) l c).
Proof.
  revert a b c. induction l as [|v l IH]; intros a b c; [reflexivity |].
  cbn [fold_left]. apply IH.
Qed.

Lemma family_sum_foldr f (m : gmap string AlgorithmsConfigKeyMap) :
  family_sum f m = foldr (λ v acc, f v.2 + acc) 0 (map_to_list m).
Proof.
  unfold family_sum. rewrite map_fold_foldr.
  induction (map_to_list m) as [|[k c] l IH]; [reflexivity |].
  cbn. by rewrite IH.
Qed.

Lemma UpdateStatus_run r :
  UpdateStatus r =
    MkRun [] (inr tt)
      (Mk (auto_tune_map_ r)
         (int64_wrap (family_sum (λ c, (AlgorithmsCache.CacheHits c).2) (auto_tune_map_ r)))
         (int64_wrap (family_sum (λ c, (AlgorithmsCache.CacheMisses c).2) (auto_tune_map_ r)))
         (int64_wrap (family_sum (λ c, (AlgorithmsCache.Size c).2) (auto_tune_map_ r)))).
Proof.
  unfold UpdateStatus. rewrite bind_get.
  erewrite bind_returned; cycle 1.
  { apply (for_each_pure _
      (λ '(x, y, z) (v : string * AlgorithmsConfigKeyMap),
         (int64_wrap (x + (AlgorithmsCache.Size v.2).2),
          int64_wrap (y + (AlgorithmsCache.CacheHits v.2).2),
          int64_wrap (z + (AlgorithmsCache.CacheMisses v.2).2)))).
    by intros [[x y] z] v s. }
  rewrite (accumulate_triple
    (λ v, (AlgorithmsCache.Size v.2).2) (λ v, (AlgorithmsCache.CacheHits v.2).2)
    (λ v, (AlgorithmsCache.CacheMisses v.2).2)).
  rewrite bind_get. unfold put.
  rewrite !accumulate_sum by (unfold in_int64, INT64_MIN, INT64_MAX; lia).
  rewrite !Z.add_0_l, !family_sum_foldr. reflexivity.
Qed.
End RegistryRuns.

(** ** Failure, totality and locking *)

Section Interface.
Context {AlgorithmT : Type} (init : AlgorithmT).
Implicit Types (c : AlgorithmsCache.t AlgorithmT) (k : Z).
Import AlgorithmsCache.

Lemma Get_final c k : final (Get init k c) = c.
Proof.
  destruct (hash_ c !! k) as [v|] eqn:Hk.
  - by rewrite (Get_present init c k v).
  - by rewrite Get_absent.
Qed.

Lemma Find_returns c k : ∃ b, outcome (Find k c) = inr b.
Proof.
  destruct (hash_ c !! k) as [v|] eqn:Hk.
  - rewrite Find_present by (rewrite Hk; eauto). eauto.
  - rewrite Find_absent by done. eauto.
Qed.

(** C5. [Get(k)] on an absent [k] raises the precondition error and leaves
    the mapping and both counters as they were; no other call of the
    cache raises anything, and no call of the registry does. *)
Theorem Get_alone_fails :
  (∀ c k, hash_ c !! k = None →
     outcome (Get init k c) = inl key_not_found ∧ final (Get init k c) = c) ∧
  (∀ op c e, outcome (invoke init op c) = inl e →
     e = key_not_found ∧ ∃ k, op = OpGet k ∧ hash_ c !! k = None) ∧
  (∀ op r, ∃ ret, outcome (AutoTuneCache.invoke op r) = inr ret).
Proof.
  split; [| split].
  - intros c k Hk. by rewrite Get_absent.
  - intros op c e. destruct op as [k|k|k v| | | |]; cbn [invoke];
      rewrite bind_ret_outcome.
    + destruct (hash_ c !! k) as [v|] eqn:Hk.
      * by rewrite (Get_present init c k v).
      * rewrite Get_absent by done. cbn. intros [= <-]. eauto.
    + by destruct (Find_returns c k) as [b ->].
    + by rewrite Set_run.
    + done.
    + done.
    + done.
    + done.
  - intros op r. destruct op as [name|rate| | | | |]; cbn [AutoTuneCache.invoke];
      rewrite bind_ret_outcome.
    + destruct (AutoTuneCache.auto_tune_map_ r !! name) as [c|] eqn:Hn.
      * rewrite RegisterOrGet_known by (rewrite Hn; eauto). eauto.
      * rewrite RegisterOrGet_fresh by done. eauto.
    + destruct (double_gt (double_of_float rate) double_0_01) eqn:Hgt.
      * rewrite Clean_above by done. eauto.
      * rewrite Clean_below by done. eauto.
    + rewrite UpdateStatus_run. eauto.
    + eauto.
    + eauto.
    + eauto.
    + eauto.
Qed.

(** C10, as the code has it. [Get], [Find] and [Set] acquire the mutex of
    the instance and release it on the way out; the four accessors of the
    statistics read the mapping and the counters without taking it. *)
Theorem lock_discipline (op : Op AlgorithmT) c :
  events (invoke init op c) =
    if is_accessor op then []
    else [Acquire cache_mutex_; Release cache_mutex_].
Proof.
  destruct op as [k|k|k v| | | |]; cbn [invoke is_accessor];
    rewrite bind_ret_events; try reflexivity.
  - destruct (hash_ c !! k) as [v|] eqn:Hk.
    + by rewrite (Get_present init c k v).
    + by rewrite Get_absent.
  - destruct (hash_ c !! k) as [v|] eqn:Hk.
    + by rewrite Find_present by (rewrite Hk; eauto).
    + by rewrite Find_absent.
  - unfold CacheHitRate, call_const. unfold_run. by destruct (decide _).
Qed.
End Interface.

(** Against C10 as stated: [Size()] on a cache holding one entry takes no
    mutex at all. *)
Lemma Size_takes_no_lock :
  ¬ In (Acquire cache_mutex_)
      (events (AlgorithmsCache.invoke 0 AlgorithmsCache.OpSize
                 (AlgorithmsCache.Mk {[5 := 7]} 1 1))).
Proof. cbn. tauto. Qed.

(** ** The registry *)

Section Registry.
Import AutoTuneCache.
Implicit Types (r : AutoTuneCache.t) (algo_type : string).

Lemma call_registered {A} algo_type (op : M AlgorithmsConfigKeyMap A) r c :
  auto_tune_map_ r !! algo_type = Some c →
  call (RefTo algo_type) op r =
    Some (MkRun (events (op c)) (outcome (op c))
            (set_auto_tune_map_ r (<[algo_type := final (op c)]> (auto_tune_map_ r)))).
Proof. intros Hc. unfold call. by rewrite Hc. Qed.

(** C1. After [Set(k, v)], [Find(k)] returns true and [Get(k)] returns [v]
    without raising the precondition error, be it called directly after
    the [Set] or after the [Find]; and so it is for a family cache reached
    through a reference of the registry, nothing having flushed the
    registry in between. *)
Theorem Set_then_Find_Get {AlgorithmT} (init : AlgorithmT)
    (c : AlgorithmsCache.t AlgorithmT) (k : Z) (v : AlgorithmT) :
  (let c1 := final (AlgorithmsCache.Set_ init k v c) in
   outcome (AlgorithmsCache.Find k c1) = inr true ∧
   outcome (AlgorithmsCache.Get init k c1) = inr v ∧
   outcome (AlgorithmsCache.Get init k (final (AlgorithmsCache.Find k c1))) = inr v) ∧
  (∀ r ref (n : Z) run1,
     call ref (AlgorithmsCache.Set_ 0 k n) r = Some run1 →
     ∃ run2 run3,
       call ref (AlgorithmsCache.Find k) (final run1) = Some run2 ∧
       outcome run2 = inr true ∧
       call ref (AlgorithmsCache.Get 0 k) (final run2) = Some run3 ∧
       outcome run3 = inr n).
Proof.
  split.
  - destruct (Set_then_lookup init c k v) as (HF & HG & Hk). cbv zeta in *.
    split; [done | split; [done |]].
    by rewrite (Get_present init _ k v Hk).
  - intros r [name] n run1. unfold call at 1.
    destruct (auto_tune_map_ r !! name) as [c0|] eqn:Hname; [| discriminate].
    intros [= <-]. cbn [final].
    destruct (Set_then_lookup 0 c0 k n) as (HF & HG & Hk). cbv zeta in *.
    set (c1 := final (AlgorithmsCache.Set_ 0 k n c0)) in *.
    do 2 eexists. split.
    { apply call_registered. unfold set_auto_tune_map_. cbn [auto_tune_map_].
      apply lookup_insert_eq. }
    cbn [outcome final]. split; [done |]. split.
    { apply call_registered. unfold set_auto_tune_map_. cbn [auto_tune_map_].
      apply lookup_insert_eq. }
    change (outcome (AlgorithmsCache.Get 0 k (final (AlgorithmsCache.Find k c1)))
            = inr n).
    by rewrite (Get_present 0 _ k n Hk).
Qed.

Lemma report_totals r r' :
  total_size_ r' = total_size_ r →
  total_cache_hits_ r' = total_cache_hits_ r →
  total_cache_misses_ r' = total_cache_misses_ r →
  report r' = report r.
Proof.
  destruct r, r'. cbn. intros -> -> ->.
  unfold report, Size, CacheHits, CacheMisses, CacheHitRate. unfold_run.
  by destruct (decide _).
Qed.

Lemma perform_keeps_family a r r' algo_type c :
  flushes a = false →
  auto_tune_map_ r !! algo_type = Some c →
  perform a r = Some r' →
  auto_tune_map_ r' !! algo_type = Some (replay algo_type [a] c).
Proof.
  intros Hflush Hc. destruct a as [op | [n] op]; cbn [perform replay fold_left].
  - intros [= <-]. destruct op as [name|rate| | | | |]; cbn [invoke];
      rewrite bind_ret_final; try done.
    + destruct (auto_tune_map_ r !! name) as [c'|] eqn:Hn.
      * by rewrite RegisterOrGet_known by (rewrite Hn; eauto).
      * rewrite RegisterOrGet_fresh by done.
        unfold set_auto_tune_map_. cbn [final auto_tune_map_].
        rewrite lookup_insert_ne; [done | congruence].
    + cbn [flushes] in Hflush. by rewrite Clean_below.
    + by rewrite UpdateStatus_run.
  - unfold call. destruct (auto_tune_map_ r !! n) as [c'|] eqn:Hn; [| discriminate].
    cbn [fmap option_fmap option_map final]. intros [= <-].
    unfold set_auto_tune_map_. cbn [auto_tune_map_].
    destruct (decide (n = algo_type)) as [-> | Hne].
    + rewrite lookup_insert_eq. congruence.
    + by rewrite lookup_insert_ne.
Qed.

Lemma perform_all_keeps_family h r r' algo_type c :
  forallb (λ a, negb (flushes a)) h = true →
  auto_tune_map_ r !! algo_type = Some c →
  perform_all h r = Some r' →
  auto_tune_map_ r' !! algo_type = Some (replay algo_type h c).
Proof.
  revert r c. induction h as [|a h IH]; intros r c Hflush Hc; cbn [perform_all].
  - by intros [= <-].
  - cbn [forallb] in Hflush. apply andb_prop in Hflush as [Ha Hh].
    apply negb_true_iff in Ha.
    destruct (perform a r) as [r1|] eqn:Hperform; [| discriminate].
    cbn [mbind option_bind]. intros Hrest.
    pose proof (perform_keeps_family a r r1 algo_type c Ha Hc Hperform) as Hc1.
    apply (IH r1 _ Hh Hc1 Hrest).
Qed.

(** C9, as the code has it. [RegisterOrGet] on a name not registered
    returns a reference to an empty cache, of size 0 with 0 hits and 0
    misses. Whatever the clients do next, short of a [Clean] that passes the
    threshold, a later [RegisterOrGet] of the name returns the same
    reference and changes nothing, and the cache it designates is the empty
    one after all the calls made on that family in between, in their
    order. *)
Theorem RegisterOrGet_shares r algo_type :
  auto_tune_map_ r !! algo_type = None →
  let run1 := RegisterOrGet algo_type r in
  outcome run1 = inr (RefTo algo_type) ∧
  auto_tune_map_ (final run1) !! algo_type = Some AlgorithmsCache.new ∧
  (AlgorithmsCache.Size (AlgorithmsCache.new (AlgorithmT := Z))).2 = 0 ∧
  (AlgorithmsCache.CacheHits (AlgorithmsCache.new (AlgorithmT := Z))).2 = 0 ∧
  (AlgorithmsCache.CacheMisses (AlgorithmsCache.new (AlgorithmT := Z))).2 = 0 ∧
  ∀ h r2,
    forallb (λ a, negb (flushes a)) h = true →
    perform_all h (final run1) = Some r2 →
    let run3 := RegisterOrGet algo_type r2 in
    outcome run3 = inr (RefTo algo_type) ∧
    final run3 = r2 ∧
    auto_tune_map_ (final run3) !! algo_type =
      Some (replay algo_type h AlgorithmsCache.new).
Proof.
  intros Hfresh. cbv zeta. rewrite RegisterOrGet_fresh by done.
  cbn [outcome final]. split; [done |].
  assert (Hnew : auto_tune_map_
            (set_auto_tune_map_ r (<[algo_type := AlgorithmsCache.new]> (auto_tune_map_ r)))
            !! algo_type = Some AlgorithmsCache.new).
  { unfold set_auto_tune_map_. cbn [auto_tune_map_]. apply lookup_insert_eq. }
  split; [exact Hnew |].
  do 3 (split; [reflexivity |]).
  intros h r2 Hflush Hperform.
  pose proof (perform_all_keeps_family h _ r2 algo_type _ Hflush Hnew Hperform) as Hc2.
  rewrite RegisterOrGet_known by (rewrite Hc2; eauto).
  cbn [outcome final]. done.
Qed.

(** C4. For a [float] [miss_rate] above 1/100, [Clean] leaves no family
    registered, and a family registered afterwards starts from the empty
    cache, of size 0; for a [miss_rate] not above 1/100, [Clean] leaves the
    registry, every family with its mapping and statistics, as it was. *)
Theorem Clean_flushes r miss_rate :
  is_float miss_rate = true →
  (above_0_01 miss_rate = true →
     auto_tune_map_ (final (Clean miss_rate r)) = ∅ ∧
     ∀ algo_type,
       auto_tune_map_ (final (RegisterOrGet algo_type (final (Clean miss_rate r))))
         !! algo_type = Some AlgorithmsCache.new ∧
       (AlgorithmsCache.Size (AlgorithmsCache.new (AlgorithmT := Z))).2 = 0) ∧
  (above_0_01 miss_rate = false → final (Clean miss_rate r) = r).
Proof.
  intros Hfloat. rewrite <- (double_gt_above miss_rate Hfloat).
  split; intros Hgt.
  - rewrite Clean_above by done. cbn [final]. split; [by destruct r |].
    intros algo_type. split; [| reflexivity].
    rewrite RegisterOrGet_fresh by (destruct r; apply lookup_empty).
    destruct r; cbn. apply lookup_insert_eq.
  - by rewrite Clean_below.
Qed.

(** C8. [UpdateStatus] stores in the three totals the sums of [Size()],
    [CacheHits()] and [CacheMisses()] over the registered families, the sums
    being within [int64_t], and changes no family; the accessors of the
    registry report these totals, and go on reporting them after a family is
    changed through a reference, after a [Clean] and after a
    [RegisterOrGet]. *)
Theorem UpdateStatus_snapshot r :
  let sizes := family_sum (λ c, (AlgorithmsCache.Size c).2) (auto_tune_map_ r) in
  let hits := family_sum (λ c, (AlgorithmsCache.CacheHits c).2) (auto_tune_map_ r) in
  let misses := family_sum (λ c, (AlgorithmsCache.CacheMisses c).2) (auto_tune_map_ r) in
  in_int64 sizes → in_int64 hits → in_int64 misses →
  let r' := final (UpdateStatus r) in
  total_size_ r' = sizes ∧ total_cache_hits_ r' = hits ∧
  total_cache_misses_ r' = misses ∧
  auto_tune_map_ r' = auto_tune_map_ r ∧
  (Size r').2 = sizes ∧ (CacheHits r').2 = hits ∧ (CacheMisses r').2 = misses ∧
  (∀ A ref (op : M AlgorithmsConfigKeyMap A) run,
     call ref op r' = Some run → report (final run) = report r') ∧
  (∀ miss_rate, report (final (Clean miss_rate r')) = report r') ∧
  (∀ algo_type, report (final (RegisterOrGet algo_type r')) = report r').
Proof.
  intros sizes hits misses Hs Hh Hm. cbv zeta.
  rewrite UpdateStatus_run. cbn [final].
  fold sizes hits misses. rewrite !int64_wrap_id by done.
  set (r' := Mk _ _ _ _).
  do 7 (split; [reflexivity |]).
  split; [| split].
  - intros A [name] op run. unfold call.
    destruct (auto_tune_map_ r' !! name) as [c|]; [| discriminate].
    intros [= <-]. by apply report_totals.
  - intros miss_rate.
    destruct (double_gt (double_of_float miss_rate) double_0_01) eqn:Hgt.
    + rewrite Clean_above by done. by apply report_totals.
    + by rewrite Clean_below.
  - intros algo_type.
    destruct (auto_tune_map_ r' !! algo_type) as [c|] eqn:Hn.
    + rewrite RegisterOrGet_known; [done | rewrite Hn; eauto].
    + rewrite RegisterOrGet_fresh by done. by apply report_totals.
Qed.
End Registry.

(** ** The hit rate *)

Section HitRate.
Context {AlgorithmT : Type}.

Lemma cache_rate_zero (c : AlgorithmsCache.t AlgorithmT) :
  int64_wrap (AlgorithmsCache.cache_hits_ c + AlgorithmsCache.cache_misses_ c) = 0 →
  (AlgorithmsCache.CacheHitRate c).2 = float_zero.
Proof.
  intros H0. unfold AlgorithmsCache.CacheHitRate; unfold_run.
  by destruct (decide _).
Qed.

Lemma cache_rate_nonzero (c : AlgorithmsCache.t AlgorithmT) :
  int64_wrap (AlgorithmsCache.cache_hits_ c + AlgorithmsCache.cache_misses_ c) ≠ 0 →
  (AlgorithmsCache.CacheHitRate c).2 =
    float_div (float_of_int64 (AlgorithmsCache.cache_hits_ c))
      (float_of_int64
         (int64_wrap (AlgorithmsCache.cache_hits_ c + AlgorithmsCache.cache_misses_ c))).
Proof.
  intros H0. unfold AlgorithmsCache.CacheHitRate; unfold_run.
  by destruct (decide _).
Qed.

Lemma registry_rate_zero (r : AutoTuneCache.t) :
  int64_wrap (AutoTuneCache.total_cache_hits_ r + AutoTuneCache.total_cache_misses_ r) = 0 →
  (AutoTuneCache.CacheHitRate r).2 = float_zero.
Proof.
  intros H0. unfold AutoTuneCache.CacheHitRate; unfold_run.
  by destruct (decide _).
Qed.

Lemma registry_rate_nonzero (r : AutoTuneCache.t) :
  int64_wrap (AutoTuneCache.total_cache_hits_ r + AutoTuneCache.total_cache_misses_ r) ≠ 0 →
  (AutoTuneCache.CacheHitRate r).2 =
    float_div (float_of_int64 (AutoTuneCache.total_cache_hits_ r))
      (float_of_int64
         (int64_wrap (AutoTuneCache.total_cache_hits_ r
                      + AutoTuneCache.total_cache_misses_ r))).
Proof.
  intros H0. unfold AutoTuneCache.CacheHitRate; unfold_run.
  by destruct (decide _).
Qed.

(** C7. With [hits + misses] inside [int64_t]: [CacheHitRate()] is the
    [float] quotient of [hits] by [hits + misses] when the sum is
    positive, its divisor being a nonzero [float], and is 0 when the sum is
    0; the same holds of the registry over its totals. *)
Theorem CacheHitRate_formula (c : AlgorithmsCache.t AlgorithmT) (r : AutoTuneCache.t) :
  let hits := AlgorithmsCache.cache_hits_ c in
  let misses := AlgorithmsCache.cache_misses_ c in
  let total_hits := AutoTuneCache.total_cache_hits_ r in
  let total_misses := AutoTuneCache.total_cache_misses_ r in
  in_int64 (hits + misses) →
  in_int64 (total_hits + total_misses) →
  (0 < hits + misses →
     (AlgorithmsCache.CacheHitRate c).2 =
       float_div (float_of_int64 hits) (float_of_int64 (hits + misses)) ∧
     is_zero (float_of_int64 (hits + misses)) = false) ∧
  (hits + misses = 0 → (AlgorithmsCache.CacheHitRate c).2 = float_zero) ∧
  (0 < total_hits + total_misses →
     (AutoTuneCache.CacheHitRate r).2 =
       float_div (float_of_int64 total_hits)
         (float_of_int64 (total_hits + total_misses)) ∧
     is_zero (float_of_int64 (total_hits + total_misses)) = false) ∧
  (total_hits + total_misses = 0 → (AutoTuneCache.CacheHitRate r).2 = float_zero).
Proof.
  intros hits misses total_hits total_misses Hc Hr.
  split; [| split; [| split]].
  - intros Hpos. split; [| apply float_of_int64_nonzero; lia].
    rewrite cache_rate_nonzero; fold hits misses; rewrite int64_wrap_id by done;
      [done | lia].
  - intros H0. apply cache_rate_zero. fold hits misses. by rewrite H0.
  - intros Hpos. split; [| apply float_of_int64_nonzero; lia].
    rewrite registry_rate_nonzero; fold total_hits total_misses;
      rewrite int64_wrap_id by done; [done | lia].
  - intros H0. apply registry_rate_zero. fold total_hits total_misses. by rewrite H0.
Qed.
End HitRate.

(** ** The statements at concrete inputs *)

Section Instances.
Import AlgorithmsCache.

Lemma Set_then_Find_Get_witness :
  outcome (Find 9 (final (Set_ 0 9 2 cache_5_7))) = inr true ∧
  outcome (Get 0 9 (final (Set_ 0 9 2 cache_5_7))) = inr 2 ∧
  ∃ run1 run2 run3,
    AutoTuneCache.call (AutoTuneCache.RefTo "conv2d") (Set_ 0 9 2) two_families
      = Some run1 ∧
    AutoTuneCache.call (AutoTuneCache.RefTo "conv2d") (Find 9) (final run1)
      = Some run2 ∧ outcome run2 = inr true ∧
    AutoTuneCache.call (AutoTuneCache.RefTo "conv2d") (Get 0 9) (final run2)
      = Some run3 ∧ outcome run3 = inr 2.
Proof.
  destruct (Set_then_Find_Get 0 cache_5_7 9 2) as [(HF & HG & _) Hreg].
  split; [exact HF | split; [exact HG |]].
  eexists.
  destruct (Hreg two_families (AutoTuneCache.RefTo "conv2d") 2 _ eq_refl)
    as (run2 & run3 & H2 & HF2 & H3 & HG3).
  exists run2, run3. split; [reflexivity | done].
Defined.

Lemma Get_alone_fails_witness :
  hash_ cache_5_7 !! 9 = None ∧
  outcome (Get 0 9 cache_5_7) = inl key_not_found ∧
  final (Get 0 9 cache_5_7) = cache_5_7.
Proof.
  assert (Habsent : hash_ cache_5_7 !! 9 = None) by (vm_compute; reflexivity).
  split; [exact Habsent |].
  destruct (Get_alone_fails 0) as (Hget & _).
  apply (Hget cache_5_7 9 Habsent).
Defined.

Lemma Find_counts_witness :
  INT64_MIN <= cache_hits_ cache_5_7 < INT64_MAX ∧
  INT64_MIN <= cache_misses_ cache_5_7 < INT64_MAX ∧
  cache_hits_ (final (Find 5 cache_5_7)) = 4 ∧
  cache_misses_ (final (Find 9 cache_5_7)) = 5.
Proof.
  assert (Hh : INT64_MIN <= cache_hits_ cache_5_7 < INT64_MAX)
    by (vm_compute; split; [discriminate | reflexivity]).
  assert (Hm : INT64_MIN <= cache_misses_ cache_5_7 < INT64_MAX)
    by (vm_compute; split; [discriminate | reflexivity]).
  split; [exact Hh | split; [exact Hm | split]].
  - destruct (Find_counts 0 cache_5_7 5 Hh Hm) as (_ & Hpresent & _).
    destruct Hpresent as [-> _]; [vm_compute; eauto | reflexivity].
  - destruct (Find_counts 0 cache_5_7 9 Hh Hm) as (Habsent & _).
    destruct Habsent as [-> _]; reflexivity.
Defined.

Lemma Set_overwrites_witness :
  Z.of_nat (size (hash_ cache_5_7)) < INT64_MAX ∧
  outcome (Get 0 9 (final (Set_ 0 9 2 (final (Set_ 0 9 1 cache_5_7))))) = inr 2 ∧
  (Size (final (Set_ 0 9 1 cache_5_7))).2 = (Size cache_5_7).2 + 1.
Proof.
  assert (Hsz : Z.of_nat (size (hash_ cache_5_7)) < INT64_MAX)
    by (vm_compute; reflexivity).
  split; [exact Hsz |].
  destruct (Set_overwrites 0 cache_5_7 9 1 2 Hsz) as (Hget & _ & _ & Hfresh).
  split; [exact Hget | apply Hfresh; reflexivity].
Defined.

Lemma CacheHitRate_formula_witness :
  in_int64 (cache_hits_ cache_5_7 + cache_misses_ cache_5_7) ∧
  in_int64 (AutoTuneCache.total_cache_hits_ two_families
            + AutoTuneCache.total_cache_misses_ two_families) ∧
  (CacheHitRate cache_5_7).2 = float_div (float_of_int64 3) (float_of_int64 7) ∧
  (AutoTuneCache.CacheHitRate two_families).2 = float_zero.
Proof.
  assert (Hc : in_int64 (cache_hits_ cache_5_7 + cache_misses_ cache_5_7))
    by (vm_compute; split; discriminate).
  assert (Hr : in_int64 (AutoTuneCache.total_cache_hits_ two_families
                         + AutoTuneCache.total_cache_misses_ two_families))
    by (vm_compute; split; discriminate).
  split; [exact Hc | split; [exact Hr |]].
  destruct (CacheHitRate_formula cache_5_7 two_families Hc Hr)
    as (Hpos & _ & _ & Hzero).
  split; [apply Hpos; reflexivity | apply Hzero; reflexivity].
Defined.

Lemma UpdateStatus_snapshot_witness :
  in_int64 (AutoTuneCache.family_sum (λ c, (Size c).2)
              (AutoTuneCache.auto_tune_map_ two_families)) ∧
  in_int64 (AutoTuneCache.family_sum (λ c, (CacheHits c).2)
              (AutoTuneCache.auto_tune_map_ two_families)) ∧
  in_int64 (AutoTuneCache.family_sum (λ c, (CacheMisses c).2)
              (AutoTuneCache.auto_tune_map_ two_families)) ∧
  AutoTuneCache.total_size_ (final (AutoTuneCache.UpdateStatus two_families)) = 1 ∧
  AutoTuneCache.total_cache_hits_ (final (AutoTuneCache.UpdateStatus two_families)) = 3 ∧
  AutoTuneCache.total_cache_misses_ (final (AutoTuneCache.UpdateStatus two_families)) = 5.
Proof.
  assert (Hs : in_int64 (AutoTuneCache.family_sum (λ c, (Size c).2)
                 (AutoTuneCache.auto_tune_map_ two_families)))
    by (vm_compute; split; discriminate).
  assert (Hh : in_int64 (AutoTuneCache.family_sum (λ c, (CacheHits c).2)
                 (AutoTuneCache.auto_tune_map_ two_families)))
    by (vm_compute; split; discriminate).
  assert (Hm : in_int64 (AutoTuneCache.family_sum (λ c, (CacheMisses c).2)
                 (AutoTuneCache.auto_tune_map_ two_families)))
    by (vm_compute; split; discriminate).
  split; [exact Hs | split; [exact Hh | split; [exact Hm |]]].
  destruct (UpdateStatus_snapshot two_families Hs Hh Hm) as (-> & -> & -> & _).
  vm_compute. auto.
Defined.

Lemma RegisterOrGet_shares_witness :
  AutoTuneCache.auto_tune_map_ two_families !! "pool2d"%string = None ∧
  outcome (AutoTuneCache.RegisterOrGet "pool2d" two_families)
    = inr (AutoTuneCache.RefTo "pool2d") ∧
  forallb (λ a, negb (AutoTuneCache.flushes a)) history_pool2d = true ∧
  ∃ r2,
    AutoTuneCache.perform_all history_pool2d
      (final (AutoTuneCache.RegisterOrGet "pool2d" two_families)) = Some r2 ∧
    AutoTuneCache.auto_tune_map_
      (final (AutoTuneCache.RegisterOrGet "pool2d" r2)) !! "pool2d"%string
      = Some (AutoTuneCache.replay "pool2d" history_pool2d new) ∧
    AutoTuneCache.replay "pool2d" history_pool2d new = Mk {[1 := 7]} 1 0.
Proof.
  assert (Hfresh : AutoTuneCache.auto_tune_map_ two_families !! "pool2d"%string = None)
    by (vm_compute; reflexivity).
  assert (Hflush : forallb (λ a, negb (AutoTuneCache.flushes a)) history_pool2d = true)
    by (vm_compute; reflexivity).
  split; [exact Hfresh |].
  destruct (RegisterOrGet_shares two_families "pool2d" Hfresh)
    as (Href & _ & _ & _ & _ & Hlater).
  split; [exact Href | split; [exact Hflush |]].
  destruct (AutoTuneCache.perform_all history_pool2d
              (final (AutoTuneCache.RegisterOrGet "pool2d" two_families)))
    as [r2|] eqn:Hperform; [| vm_compute in Hperform; discriminate].
  exists r2. split; [reflexivity |]. split.
  - apply (Hlater history_pool2d r2 Hflush Hperform).
  - vm_compute. reflexivity.
Defined.

(** Against C9 as stated: "conv2d" is registered, 7 is set under the key 1
    through the reference, a [Clean] passes the threshold, and "conv2d" is
    registered again; [Find(1)] through the later reference returns false,
    the entry set through the earlier one being gone. *)
Lemma flush_ends_sharing :
  (r2 ← AutoTuneCache.perform_all history_flush
          (final (AutoTuneCache.RegisterOrGet "conv2d" AutoTuneCache.new));
   run ← AutoTuneCache.call (AutoTuneCache.RefTo "conv2d") (Find 1)
           (final (AutoTuneCache.RegisterOrGet "conv2d" r2));
   Some (outcome run)) = Some (inr false).
Proof. vm_compute. reflexivity. Qed.

Lemma Clean_flushes_witness :
  is_float float_0_02 = true ∧ above_0_01 float_0_02 = true ∧
  is_float float_0_01 = true ∧ above_0_01 float_0_01 = false ∧
  is_float float_0_005 = true ∧ above_0_01 float_0_005 = false ∧
  AutoTuneCache.auto_tune_map_ (final (AutoTuneCache.Clean float_0_02 two_families)) = ∅ ∧
  final (AutoTuneCache.Clean float_0_01 two_families) = two_families ∧
  final (AutoTuneCache.Clean float_0_005 two_families) = two_families.
Proof.
  assert (F2 : is_float float_0_02 = true) by (vm_compute; reflexivity).
  assert (A2 : above_0_01 float_0_02 = true) by (vm_compute; reflexivity).
  assert (F1 : is_float float_0_01 = true) by (vm_compute; reflexivity).
  assert (A1 : above_0_01 float_0_01 = false) by (vm_compute; reflexivity).
  assert (F5 : is_float float_0_005 = true) by (vm_compute; reflexivity).
  assert (A5 : above_0_01 float_0_005 = false) by (vm_compute; reflexivity).
  do 6 (split; [assumption |]).
  split; [| split].
  - apply (Clean_flushes two_families float_0_02 F2). exact A2.
  - apply (Clean_flushes two_families float_0_01 F1). exact A1.
  - apply (Clean_flushes two_families float_0_005 F5). exact A5.
Defined.
End Instances.

(** ** A first use, and the edges *)

Section Scenario.
Import AlgorithmsCache.

Lemma family_sum_empty f : AutoTuneCache.family_sum f ∅ = 0.
Proof. unfold AutoTuneCache.family_sum. apply map_fold_empty. Qed.

Lemma family_sum_insert f (m : gmap string AlgorithmsConfigKeyMap) algo_type c :
  m !! algo_type = None →
  AutoTuneCache.family_sum f (<[algo_type := c]> m) = f c + AutoTuneCache.family_sum f m.
Proof.
  intros Hfresh. unfold AutoTuneCache.family_sum.
  apply (map_fold_insert_L (λ _ c acc, f c + acc)); [| done].
  intros. lia.
Qed.

Example GetKey_empty : GetKey Z int_hash [] = 0.
Proof. reflexivity. Qed.

Example GetKey_scalars :
  GetKey Z int_hash [Scalar 1; Scalar 2] = 175247769363.
Proof. vm_compute. reflexivity. Qed.

Example conv_key_value : conv_key = 2619729776858069068.
Proof. vm_compute. reflexivity. Qed.

Example GetKey_order_matters :
  GetKey Z int_hash [Scalar 1; Scalar 2] ≠ GetKey Z int_hash [Scalar 2; Scalar 1].
Proof. vm_compute. discriminate. Qed.

Example GetKey_vector_is_one_argument :
  GetKey Z int_hash [Vector [Scalar 1; Scalar 2]] ≠ GetKey Z int_hash [Scalar 1; Scalar 2].
Proof. vm_compute. discriminate. Qed.

(** A miss, the [Set], a hit, the [Get], and a hit rate of one half. *)
Example first_use_of_a_key :
  let c0 : AlgorithmsConfigKeyMap := new in
  let run1 := Find conv_key c0 in
  let run2 := Set_ 0 conv_key 7 (final run1) in
  let run3 := Find conv_key (final run2) in
  let run4 := Get 0 conv_key (final run3) in
  outcome run1 = inr false ∧ (CacheMisses (final run1)).2 = 1 ∧
  outcome run3 = inr true ∧ (CacheHits (final run3)).2 = 1 ∧
  outcome run4 = inr 7 ∧
  (CacheHitRate (final run4)).2 = S754_finite false 8388608 (-24).
Proof. vm_compute. repeat split. Qed.

(** After a flush the reference handed out before it designates nothing. *)
Example Clean_leaves_reference_dangling :
  AutoTuneCache.call (AutoTuneCache.RefTo "conv2d") (Find 5)
    (final (AutoTuneCache.Clean float_0_02 two_families)) = None.
Proof. vm_compute. reflexivity. Qed.

(** At the end of the range the increment overflows: undefined in C++, a
    wrap-around in the embedding. *)
Example Find_at_INT64_MAX :
  cache_hits_ (final (Find 5 (Mk {[5 := 7]} INT64_MAX 0))) = INT64_MIN.
Proof. vm_compute. reflexivity. Qed.
End Scenario.

(** * Further properties *)

(** ** The conversion to [float] and the quotient *)

Section Quotient.

(** A rounding step above the least exponent: the mantissa that is left
    fits the 24 bits, and the exponent rises by the bits dropped. *)
Lemma shr_fexp_bounds m e l :
  -149 <= e →
  0 < shr_m (shr_fexp 24 128 (Zpos m) e l).1 < 2 ^ 24 ∧
  (shr_fexp 24 128 (Zpos m) e l).2 = e + Z.max 0 (Zpos (digits2_pos m) - 24).
Proof.
  intros He. unfold shr_fexp, shr, fexp, emin. cbn [Zdigits2].
  pose proof (digits2_pos_lower m) as Hlo.
  pose proof (digits2_pos_upper m) as Hup.
  set (d := Zpos (digits2_pos m)) in *.
  destruct (Z.max (d + e - 24) (3 - 128 - 24) - e) as [|q|q] eqn:Hn;
    cbn [fst snd]; rewrite ?shr_record_of_loc_m.
  - split; [| lia]. split; [lia |].
    eapply Z.lt_le_trans; [exact Hup |]. apply Z.pow_le_mono_r; lia.
  - rewrite iter_shr_m by (rewrite shr_record_of_loc_m; lia).
    rewrite shr_record_of_loc_m.
    assert (Hq : Zpos q = d - 24) by lia.
    split; [| lia]. split.
    + apply Z.div_str_pos. split; [lia |].
      eapply Z.le_trans; [| exact Hlo]. apply Z.pow_le_mono_r; lia.
    + apply Z.div_lt_upper_bound; [lia |].
      rewrite <- Z.pow_add_r by lia. replace (Zpos q + 24) with d by lia. exact Hup.
  - split; [| lia]. split; [lia |].
    eapply Z.lt_le_trans; [exact Hup |]. apply Z.pow_le_mono_r; lia.
Qed.

Lemma round_nearest_even_le m l : round_nearest_even m l <= m + 1.
Proof.
  destruct l as [|[| |]]; cbn [round_nearest_even]; try lia.
  destruct (Z.even m); lia.
Qed.

(** Rounding a positive mantissa whose exponent stays below the largest one
    gives a finite value of the same sign. *)
Lemma binary_round_aux_finite s m e l :
  -149 <= e →
  e + Z.max 0 (Zpos (digits2_pos m) - 24) + 1 <= 104 →
  ∃ m' e', binary_round_aux 24 128 s (Zpos m) e l = S754_finite s m' e'.
Proof.
  intros He Hmax. unfold binary_round_aux.
  destruct (shr_fexp_bounds m e l He) as [Hm1 He1].
  destruct (shr_fexp 24 128 (Zpos m) e l) as [mrs1 e1]. cbn [fst snd] in *.
  pose proof (round_nearest_even_pos _ (loc_of_shr_record mrs1) (proj1 Hm1)) as Hr.
  pose proof (round_nearest_even_le (shr_m mrs1) (loc_of_shr_record mrs1)) as Hr'.
  destruct (round_nearest_even (shr_m mrs1) (loc_of_shr_record mrs1))
    as [|m2|m2]; [lia | | lia].
  assert (He1' : -149 <= e1) by lia.
  destruct (shr_fexp_bounds m2 e1 loc_Exact He1') as [Hm2 He2].
  pose proof (digits2_pos_lower m2) as Hd2.
  assert (Hd2' : Zpos (digits2_pos m2) <= 25).
  { destruct (Z.le_gt_cases (Zpos (digits2_pos m2)) 25) as [|Hgt]; [done |].
    assert (2 ^ 25 <= 2 ^ (Zpos (digits2_pos m2) - 1)) by (apply Z.pow_le_mono_r; lia).
    lia. }
  destruct (shr_fexp 24 128 (Zpos m2) e1 loc_Exact) as [mrs2 e2]. cbn [fst snd] in *.
  destruct (shr_m mrs2) as [|m3|m3]; [lia | | lia].
  replace (e2 <=? 128 - 24) with true by (symmetry; apply Z.leb_le; lia).
  eauto.
Qed.

(** An [int64_t] other than 0 converts to a finite [float] of its sign. *)
Lemma float_of_int64_finite n :
  n ≠ 0 → in_int64 n →
  ∃ m e, float_of_int64 n = S754_finite (n <? 0) m e.
Proof.
  intros Hn Hrange. unfold in_int64, INT64_MIN, INT64_MAX in Hrange.
  unfold float_of_int64, binary_normalize, binary_round.
  assert (Hal : ∀ p, Zpos p <= 2 ^ 63 →
    let '(mz, ez) := shl_align p 0 (fexp 24 128 (Zpos (digits2_pos p) + 0)) in
    -149 <= ez ∧ ez + Z.max 0 (Zpos (digits2_pos mz) - 24) + 1 <= 104).
  { intros p Hp. unfold shl_align, fexp, emin.
    pose proof (digits2_pos_lower p) as Hlo.
    assert (Hd : Zpos (digits2_pos p) <= 64).
    { destruct (Z.le_gt_cases (Zpos (digits2_pos p)) 64) as [|Hgt]; [done |].
      assert (2 ^ 64 <= 2 ^ (Zpos (digits2_pos p) - 1)) by (apply Z.pow_le_mono_r; lia).
      lia. }
    destruct (Z.max _ _ - 0) as [|q|q] eqn:Hq; [lia | lia |].
    rewrite iter_xO_digits, Pos2Z.inj_add. lia. }
  destruct n as [|p|p]; [done | |].
  - specialize (Hal p ltac:(lia)). destruct (shl_align _ _ _) as [mz ez].
    destruct Hal as [He Hmax]. by apply binary_round_aux_finite.
  - specialize (Hal p ltac:(lia)). destruct (shl_align _ _ _) as [mz ez].
    destruct Hal as [He Hmax]. by apply binary_round_aux_finite.
Qed.

(** A finite [float] divided by itself is 1. *)
Lemma float_div_same s m e :
  float_div (S754_finite s m e) (S754_finite s m e) = float_one.
Proof.
  unfold float_div, SFdiv, SFdiv_core_binary. cbn [Zdigits2].
  replace (Z.min (fexp 24 128 (Zpos (digits2_pos m) + e - (Zpos (digits2_pos m) + e))) (e - e))
    with (-24) by (unfold fexp, emin; lia).
  replace (e - e - -24) with 24 by lia.
  assert (Hdiv : Z.div_eucl (Z.shiftl (Zpos m) 24) (Zpos m) = (2 ^ 24, 0)).
  { rewrite Z.shiftl_mul_pow2 by lia.
    pose proof (Z.div_eucl_eq (Zpos m * 2 ^ 24) (Zpos m) ltac:(lia)) as Heq.
    pose proof (Z.mod_pos_bound (Zpos m * 2 ^ 24) (Zpos m) ltac:(lia)) as Hmod.
    unfold Z.modulo in Hmod.
    destruct (Z.div_eucl (Zpos m * 2 ^ 24) (Zpos m)) as [q r].
    assert (q = 2 ^ 24) by nia. f_equal; nia. }
  rewrite Hdiv.
  assert (Hloc : new_location (Zpos m) 0 = loc_Exact).
  { unfold new_location, new_location_even, new_location_odd.
    by destruct (Z.even _). }
  rewrite Hloc. by destruct s.
Qed.

(** Rounding never gives a NaN. *)
Lemma binary_round_aux_not_nan s mx e l :
  0 <= mx → binary_round_aux 24 128 s mx e l ≠ S754_nan.
Proof.
  intros Hmx. unfold binary_round_aux, shr_fexp.
  assert (Hshr : ∀ r ex n, 0 <= shr_m r → 0 <= shr_m (shr r ex n).1).
  { intros r ex n Hr. unfold shr. destruct n as [|q|q]; cbn [fst]; [done | | done].
    rewrite iter_shr_m by done. apply Z.div_pos; lia. }
  set (r1 := shr _ _ _).
  assert (H1 : 0 <= shr_m r1.1) by (apply Hshr; by rewrite shr_record_of_loc_m).
  destruct r1 as [mrs1 e1]. cbn [fst] in H1.
  assert (H2 : 0 <= round_nearest_even (shr_m mrs1) (loc_of_shr_record mrs1)).
  { destruct (loc_of_shr_record mrs1) as [|[| |]]; cbn [round_nearest_even]; try lia.
    destruct (Z.even _); lia. }
  set (r2 := shr _ _ _).
  assert (H3 : 0 <= shr_m r2.1) by (apply Hshr; by rewrite shr_record_of_loc_m).
  destruct r2 as [mrs2 e2]. cbn [fst] in H3.
  destruct (shr_m mrs2) as [|m3|m3]; [done | by destruct (Z.leb _ _) | lia].
Qed.
End Quotient.

Lemma quotient_not_nan h n :
  in_int64 h → in_int64 n → n ≠ 0 →
  float_div (float_of_int64 h) (float_of_int64 n) ≠ S754_nan.
Proof.
  intros Hh Hn Hn0.
  destruct (float_of_int64_finite n Hn0 Hn) as (mn & en & ->).
  destruct (Z.eq_dec h 0) as [-> | Hh0]; [done |].
  destruct (float_of_int64_finite h Hh0 Hh) as (mh & eh & ->).
  unfold float_div, SFdiv, SFdiv_core_binary.
  set (m' := match _ - _ with Z0 => Zpos mh | Zpos _ => Z.shiftl (Zpos mh) _ | Zneg _ => 0 end).
  assert (Hm' : 0 <= m').
  { unfold m'. destruct (_ - _); [lia | | lia]. apply Z.shiftl_nonneg. lia. }
  pose proof (Z.div_pos m' (Zpos mn) Hm' ltac:(lia)) as Hq.
  unfold Z.div in Hq. destruct (Z.div_eucl m' (Zpos mn)) as [q r].
  by apply binary_round_aux_not_nan.
Qed.

Lemma quotient_of_zero n :
  0 < n → in_int64 n →
  float_div (float_of_int64 0) (float_of_int64 n) = float_zero.
Proof.
  intros Hpos Hn.
  destruct (float_of_int64_finite n ltac:(lia) Hn) as (mn & en & ->).
  replace (n <? 0) with false by (symmetry; apply Z.ltb_ge; lia).
  reflexivity.
Qed.

Lemma quotient_of_same n :
  n ≠ 0 → in_int64 n →
  float_div (float_of_int64 n) (float_of_int64 n) = float_one.
Proof.
  intros Hn0 Hn. destruct (float_of_int64_finite n Hn0 Hn) as (mn & en & ->).
  apply float_div_same.
Qed.

Section HitRateEdges.
Context {AlgorithmT : Type}.

(** X15. With no hit the rate is +0, whatever the misses; with hits and no miss
    it is exactly 1, whatever the rounding of the count; for the cache and
    for the registry alike. *)
Theorem CacheHitRate_edges (c : AlgorithmsCache.t AlgorithmT) (r : AutoTuneCache.t) :
  in_int64 (AlgorithmsCache.cache_hits_ c) →
  in_int64 (AlgorithmsCache.cache_misses_ c) →
  in_int64 (AutoTuneCache.total_cache_hits_ r) →
  in_int64 (AutoTuneCache.total_cache_misses_ r) →
  (AlgorithmsCache.cache_hits_ c = 0 → 0 <= AlgorithmsCache.cache_misses_ c →
     (AlgorithmsCache.CacheHitRate c).2 = float_zero) ∧
  (AlgorithmsCache.cache_misses_ c = 0 → AlgorithmsCache.cache_hits_ c ≠ 0 →
     (AlgorithmsCache.CacheHitRate c).2 = float_one) ∧
  (AutoTuneCache.total_cache_hits_ r = 0 → 0 <= AutoTuneCache.total_cache_misses_ r →
     (AutoTuneCache.CacheHitRate r).2 = float_zero) ∧
  (AutoTuneCache.total_cache_misses_ r = 0 → AutoTuneCache.total_cache_hits_ r ≠ 0 →
     (AutoTuneCache.CacheHitRate r).2 = float_one).
Proof.
  intros Hh Hm Hth Htm.
  assert (Hzero : ∀ misses, in_int64 misses → 0 <= misses →
    (if decide (int64_wrap (0 + misses) ≠ 0)
     then float_div (float_of_int64 0) (float_of_int64 (int64_wrap (0 + misses)))
     else float_zero) = float_zero).
  { intros misses Hr Hnn. rewrite Z.add_0_l, int64_wrap_id by done.
    destruct (decide _); [| done]. apply quotient_of_zero; [lia | done]. }
  assert (Hone : ∀ hits, in_int64 hits → hits ≠ 0 →
    (if decide (int64_wrap (hits + 0) ≠ 0)
     then float_div (float_of_int64 hits) (float_of_int64 (int64_wrap (hits + 0)))
     else float_zero) = float_one).
  { intros hits Hr Hne. rewrite Z.add_0_r, int64_wrap_id by done.
    destruct (decide _); [| done]. by apply quotient_of_same. }
  split; [| split; [| split]].
  - intros H0 Hnn. specialize (Hzero _ Hm Hnn).
    unfold AlgorithmsCache.CacheHitRate; unfold_run. rewrite H0.
    by destruct (decide _).
  - intros H0 Hne. specialize (Hone _ Hh Hne).
    unfold AlgorithmsCache.CacheHitRate; unfold_run. rewrite H0.
    by destruct (decide _).
  - intros H0 Hnn. specialize (Hzero _ Htm Hnn).
    unfold AutoTuneCache.CacheHitRate; unfold_run. rewrite H0.
    by destruct (decide _).
  - intros H0 Hne. specialize (Hone _ Hth Hne).
    unfold AutoTuneCache.CacheHitRate; unfold_run. rewrite H0.
    by destruct (decide _).
Qed.

(** X16. The rate is never a NaN. *)
Theorem CacheHitRate_not_nan (c : AlgorithmsCache.t AlgorithmT) (r : AutoTuneCache.t) :
  in_int64 (AlgorithmsCache.cache_hits_ c) →
  in_int64 (AutoTuneCache.total_cache_hits_ r) →
  (AlgorithmsCache.CacheHitRate c).2 ≠ S754_nan ∧
  (AutoTuneCache.CacheHitRate r).2 ≠ S754_nan.
Proof.
  intros Hh Hth. split.
  - unfold AlgorithmsCache.CacheHitRate; unfold_run.
    destruct (decide _) as [Hne|]; cbn; [| done].
    apply quotient_not_nan; [done | apply int64_wrap_range | done].
  - unfold AutoTuneCache.CacheHitRate; unfold_run.
    destruct (decide _) as [Hne|]; cbn; [| done].
    apply quotient_not_nan; [done | apply int64_wrap_range | done].
Qed.
End HitRateEdges.

(** ** How keys compose and when they collide *)

Section KeyStructure.
Context {T : Type} (std_hash : T → Z).

Lemma lxor_cancel_l a x y : Z.lxor a x = Z.lxor a y → x = y.
Proof.
  intros Heq.
  assert (Hinv : ∀ z, Z.lxor a (Z.lxor a z) = z).
  { intros z. by rewrite <- Z.lxor_assoc, Z.lxor_nilpotent, Z.lxor_0_l. }
  by rewrite <- (Hinv x), Heq, Hinv.
Qed.

(** One step of the recurrence loses nothing of the hash it folds in. *)
Lemma combine_inj seed h1 h2 :
  0 <= h1 < 2 ^ 64 → 0 <= h2 < 2 ^ 64 →
  combine seed h1 = combine seed h2 → h1 = h2.
Proof.
  intros H1 H2.
  rewrite <- (size_t_wrap_small h1), <- (size_t_wrap_small h2) by done.
  rewrite !combine_spec, !size_t_wrap_small by done.
  unfold spec_combine. intros Heq%lxor_cancel_l.
  set (X := 2654435769 + Z.shiftl seed 6 + Z.shiftr seed 2) in *.
  replace (h1 + 2654435769 + Z.shiftl seed 6 + Z.shiftr seed 2) with (h1 + X) in Heq
    by (unfold X; lia).
  replace (h2 + 2654435769 + Z.shiftl seed 6 + Z.shiftr seed 2) with (h2 + X) in Heq
    by (unfold X; lia).
  pose proof (Z.div_mod (h1 + X) (2 ^ 64) ltac:(lia)) as D1.
  pose proof (Z.div_mod (h2 + X) (2 ^ 64) ltac:(lia)) as D2.
  rewrite Heq in D1. lia.
Qed.

Lemma HashCombine_app seed (args rest : list (Arg T)) :
  HashCombine T std_hash seed (args ++ rest) =
    HashCombine T std_hash (HashCombine T std_hash seed args) rest.
Proof. rewrite !HashCombine_fold. apply fold_left_app. Qed.

Lemma HashCombine_range seed (args : list (Arg T)) :
  0 <= seed < 2 ^ 64 → 0 <= HashCombine T std_hash seed args < 2 ^ 64.
Proof.
  revert seed. induction args as [|a args IH]; intros seed Hseed; [done |].
  cbn [HashCombine]. apply IH. by apply combine_range.
Qed.

(** The key depends on its arguments through their hashes alone. *)
Lemma HashCombine_hashes seed (args1 args2 : list (Arg T)) :
  hasher T std_hash <$> args1 = hasher T std_hash <$> args2 →
  HashCombine T std_hash seed args1 = HashCombine T std_hash seed args2.
Proof.
  revert seed args2. induction args1 as [|a args1 IH]; intros seed [|b args2] Heq;
    try done.
  cbn in Heq. injection Heq as Hab Hrest. cbn [HashCombine]. rewrite Hab. by apply IH.
Qed.

(** X6. The key of a longer argument list continues the fold from the key of
    its prefix, and the hash of a vector is the key of its elements. *)
Theorem GetKey_composes (args rest vec : list (Arg T)) :
  GetKey T std_hash (args ++ rest) =
    HashCombine T std_hash (GetKey T std_hash args) rest ∧
  hasher T std_hash (Vector vec) = GetKey T std_hash vec ∧
  GetKey T std_hash [Vector vec] = combine 0 (GetKey T std_hash vec).
Proof.
  assert (Hvec : hasher T std_hash (Vector vec) = GetKey T std_hash vec).
  { unfold GetKey. rewrite HashCombine_fold. reflexivity. }
  split; [apply HashCombine_app | split; [exact Hvec |]].
  unfold GetKey at 1. cbn [HashCombine]. by rewrite Hvec.
Qed.

(** X7. Two argument lists that differ in their last argument only have the
    same key exactly when the two last arguments have the same hash. *)
Theorem last_argument_decides (args : list (Arg T)) (a b : Arg T) :
  GetKey T std_hash (args ++ [a]) = GetKey T std_hash (args ++ [b]) ↔
  hasher T std_hash a = hasher T std_hash b.
Proof.
  unfold GetKey. rewrite !HashCombine_app. cbn [HashCombine]. split.
  - apply combine_inj; apply hasher_range.
  - by intros ->.
Qed.

(** X8. An empty vector has the hash 0: anywhere in the argument list it gives
    the key that a scalar of hash 0 gives there. *)
Theorem empty_vector_collides (pre post : list (Arg T)) (v : T) :
  size_t_wrap (std_hash v) = 0 →
  GetKey T std_hash (pre ++ Vector [] :: post) =
    GetKey T std_hash (pre ++ Scalar v :: post).
Proof.
  intros Hv. unfold GetKey. apply HashCombine_hashes.
  rewrite !fmap_app, !fmap_cons. cbn [hasher fold_left]. by rewrite Hv.
Qed.
End KeyStructure.

(** ** One cache over a history of calls *)

Section CacheHistories.
Context {AlgorithmT : Type} (init : AlgorithmT).
Implicit Types (c : AlgorithmsCache.t AlgorithmT) (k : Z) (v : AlgorithmT)
  (op : AlgorithmsCache.Op AlgorithmT) (h : list (AlgorithmsCache.Op AlgorithmT)).
Import AlgorithmsCache.

Lemma Find_hash c k : hash_ (final (Find k c)) = hash_ c.
Proof.
  destruct (hash_ c !! k) as [v|] eqn:Hk.
  - by rewrite Find_present by (rewrite Hk; eauto).
  - by rewrite Find_absent.
Qed.

(** What a call does to the mapping: a [Set] inserts, nothing else touches
    it. *)
Lemma invoke_hash op c :
  hash_ (final (invoke init op c)) =
    match op with OpSet k v => <[k := v]> (hash_ c) | _ => hash_ c end.
Proof.
  destruct op as [k|k|k v| | | |]; cbn [invoke]; rewrite bind_ret_final.
  - by rewrite Get_final.
  - apply Find_hash.
  - by rewrite Set_run.
  - done.
  - done.
  - done.
  - done.
Qed.

Lemma invoke_counters op c :
  (is_Find op = true →
     INT64_MIN <= cache_hits_ c < INT64_MAX ∧
     INT64_MIN <= cache_misses_ c < INT64_MAX) →
  cache_hits_ (final (invoke init op c)) + cache_misses_ (final (invoke init op c)) =
    cache_hits_ c + cache_misses_ c + (if is_Find op then 1 else 0) ∧
  cache_hits_ c <= cache_hits_ (final (invoke init op c)) ∧
  cache_misses_ c <= cache_misses_ (final (invoke init op c)).
Proof.
  intros Hrange.
  destruct op as [k|k|k v| | | |]; cbn [invoke is_Find] in *; rewrite bind_ret_final.
  - rewrite Get_final. lia.
  - destruct Hrange as [Hh Hm]; [done |].
    destruct (hash_ c !! k) as [v|] eqn:Hk.
    + rewrite Find_present by (rewrite Hk; eauto). cbn.
      rewrite int64_wrap_succ by done. lia.
    + rewrite Find_absent by done. cbn. rewrite int64_wrap_succ by done. lia.
  - rewrite Set_run. cbn. lia.
  - cbn. lia.
  - cbn. lia.
  - cbn. lia.
  - cbn. lia.
Qed.

Lemma run_ops_cons op h c :
  run_ops init (op :: h) c = run_ops init h (final (invoke init op c)).
Proof. reflexivity. Qed.

Lemma run_ops_app h1 h2 c :
  run_ops init (h1 ++ h2) c = run_ops init h2 (run_ops init h1 c).
Proof. apply fold_left_app. Qed.

Lemma count_Find_cons op h :
  count_Find (op :: h) = (if is_Find op then 1 else 0) + count_Find h.
Proof.
  unfold count_Find. rewrite filter_cons.
  destruct (decide (is_Find op = true)) as [-> | Hn]; [cbn [length]; lia |].
  destruct (is_Find op); [done | lia].
Qed.

Lemma count_Find_nonneg h : 0 <= count_Find h.
Proof. unfold count_Find. lia. Qed.

(** X1. A [Set] of one key leaves the answers for every other key as they
    were. *)
Theorem Set_leaves_other_keys c k k' v :
  k ≠ k' →
  outcome (Find k' (final (Set_ init k v c))) = outcome (Find k' c) ∧
  outcome (Get init k' (final (Set_ init k v c))) = outcome (Get init k' c).
Proof.
  intros Hne. rewrite Set_run. cbn [final].
  set (c1 := Mk _ _ _).
  assert (Hk : hash_ c1 !! k' = hash_ c !! k') by (by apply lookup_insert_ne).
  destruct (hash_ c !! k') as [v'|] eqn:Hc.
  - rewrite (Find_present c1 k'), (Find_present c k') by (rewrite ?Hk, ?Hc; eauto).
    by rewrite (Get_present init c1 k' v' Hk), (Get_present init c k' v' Hc).
  - rewrite (Find_absent c1 k' Hk), (Find_absent c k' Hc).
    by rewrite (Get_absent init c1 k' Hk), (Get_absent init c k' Hc).
Qed.

(** X2. [Find] answers true exactly when [Get] returns a value, and false
    exactly when [Get] throws; a [Get] right after a [Find] that answered
    true returns; neither adds an entry to the mapping. *)
Theorem Find_tells_Get c k :
  (outcome (Find k c) = inr true ↔ ∃ v, outcome (Get init k c) = inr v) ∧
  (outcome (Find k c) = inr false ↔ outcome (Get init k c) = inl key_not_found) ∧
  (outcome (Find k c) = inr true →
     ∃ v, outcome (Get init k (final (Find k c))) = inr v) ∧
  hash_ (final (Find k c)) = hash_ c ∧
  hash_ (final (Get init k c)) = hash_ c.
Proof.
  destruct (hash_ c !! k) as [v|] eqn:Hk.
  - rewrite (Find_present c k) by (rewrite Hk; eauto).
    rewrite (Get_present init c k v Hk). cbn [outcome final hash_].
    split; [split; eauto |]. split; [split; discriminate |].
    split; [| done]. intros _. exists v.
    by rewrite (Get_present init _ k v).
  - rewrite (Find_absent c k Hk), (Get_absent init c k Hk). cbn [outcome final hash_].
    split; [split; [discriminate | intros [v' ?]; discriminate] |].
    split; [done |]. split; [discriminate | done].
Qed.

(** X3. Over any history of calls the two counters never decrease and their
    sum grows by the number of calls of [Find], the counters staying within
    [int64_t]. *)
Theorem Find_calls_counted h c :
  0 <= cache_hits_ c → 0 <= cache_misses_ c →
  cache_hits_ c + cache_misses_ c + count_Find h <= INT64_MAX →
  cache_hits_ (run_ops init h c) + cache_misses_ (run_ops init h c) =
    cache_hits_ c + cache_misses_ c + count_Find h ∧
  cache_hits_ c <= cache_hits_ (run_ops init h c) ∧
  cache_misses_ c <= cache_misses_ (run_ops init h c).
Proof.
  revert c. induction h as [|op h IH]; intros c Hh Hm Hmax.
  - cbn. unfold count_Find. cbn. lia.
  - rewrite run_ops_cons. rewrite count_Find_cons in *.
    pose proof (count_Find_nonneg h) as Hn.
    assert (Hstep : cache_hits_ c + cache_misses_ c + (if is_Find op then 1 else 0)
                    <= INT64_MAX) by lia.
    destruct (invoke_counters op c) as (Hsum & Hh' & Hm').
    { intros Hop. rewrite Hop in Hstep. unfold INT64_MIN, INT64_MAX in *. lia. }
    destruct (IH (final (invoke init op c))) as (IH1 & IH2 & IH3); lia.
Qed.

(** X4. The cache never evicts: after a history a key is present exactly when
    it was present before or the history holds a [Set] of it, and the
    number of entries has not gone down. *)
Theorem entries_persist h c k :
  (is_Some (hash_ (run_ops init h c) !! k) ↔
     is_Some (hash_ c !! k) ∨ ∃ v, OpSet k v ∈ h) ∧
  (size (hash_ c) ≤ size (hash_ (run_ops init h c)))%nat.
Proof.
  revert c. induction h as [|op h IH]; intros c.
  - cbn. split; [| lia]. split; [eauto |].
    intros [? | [v Hin]]; [done | by apply elem_of_nil in Hin].
  - rewrite run_ops_cons. destruct (IH (final (invoke init op c))) as [IHk IHs].
    rewrite invoke_hash in IHk, IHs. split.
    + rewrite IHk. destruct op as [k'|k'|k' v'| | | |];
        try (split; [intros [? | [v Hin]]; [eauto | right; exists v; by right]
                    | intros [? | [v Hin]]; [eauto | apply elem_of_cons in Hin as [? | ?];
                                                      [discriminate | eauto]]]).
      destruct (decide (k' = k)) as [-> | Hne].
      * rewrite lookup_insert_eq. split; [| eauto].
        intros _. right. exists v'. by left.
      * rewrite lookup_insert_ne by done. split.
        -- intros [? | [v Hin]]; [eauto | right; exists v; by right].
        -- intros [? | [v Hin]]; [eauto |].
           apply elem_of_cons in Hin as [[= ? ?] | ?]; [congruence | eauto].
    + etrans; [| exact IHs]. destruct op as [k'|k'|k' v'| | | |]; try done.
      rewrite map_size_insert. destruct (hash_ c !! k'); cbn; lia.
Qed.

(** X5. The last [Set] of a key wins over a whole history: whatever is called
    after it, short of another [Set] of that key, [Find] answers true and
    [Get] returns the value set. *)
Theorem last_Set_wins h1 h2 c k v :
  forallb (λ op, negb (sets_key k op)) h2 = true →
  outcome (Find k (run_ops init (h1 ++ OpSet k v :: h2) c)) = inr true ∧
  outcome (Get init k (run_ops init (h1 ++ OpSet k v :: h2) c)) = inr v.
Proof.
  intros Hh2. rewrite run_ops_app, run_ops_cons.
  set (c1 := final (invoke init (OpSet k v) (run_ops init h1 c))).
  assert (Hc1 : hash_ c1 !! k = Some v).
  { unfold c1. rewrite invoke_hash. apply lookup_insert_eq. }
  assert (Hkeep : hash_ (run_ops init h2 c1) !! k = Some v).
  { clearbody c1. revert c1 Hc1 Hh2. induction h2 as [|op h2 IH]; intros c1 Hc1 Hh2.
    - done.
    - cbn [forallb] in Hh2. apply andb_prop in Hh2 as [Hop Hrest].
      rewrite run_ops_cons. apply IH; [| done].
      rewrite invoke_hash. destruct op as [k'|k'|k' v'| | | |]; try done.
      cbn [sets_key] in Hop. apply negb_true_iff, bool_decide_eq_false in Hop.
      by rewrite lookup_insert_ne. }
  rewrite Find_present by (rewrite Hkeep; eauto).
  by rewrite (Get_present init _ k v Hkeep).
Qed.
End CacheHistories.

(** ** The registry and its families *)

Section RegistryFrames.
Import AutoTuneCache.
Implicit Types (r : AutoTuneCache.t) (algo_type : string).


(** X10. [RegisterOrGet] adds the name and nothing else: every family registered
    before keeps its cache, the name itself included, the totals stay, and
    a second call in a row changes nothing more. *)
Theorem RegisterOrGet_adds_only r algo_type :
  let r' := final (RegisterOrGet algo_type r) in
  dom (auto_tune_map_ r') = {[algo_type]} ∪ dom (auto_tune_map_ r) ∧
  (∀ name c, auto_tune_map_ r !! name = Some c → auto_tune_map_ r' !! name = Some c) ∧
  report r' = report r ∧
  RegisterOrGet algo_type r' = MkRun registry_lock (inr (RefTo algo_type)) r'.
Proof.
  cbv zeta. destruct (auto_tune_map_ r !! algo_type) as [c|] eqn:Hc.
  - rewrite (RegisterOrGet_known r algo_type) by (rewrite Hc; eauto).
    cbn [final]. split; [| split; [done | split; [done |]]].
    + apply elem_of_dom_2 in Hc. symmetry.
      apply subseteq_union_1_L. by apply singleton_subseteq_l.
    + apply RegisterOrGet_known. rewrite Hc. eauto.
  - rewrite (RegisterOrGet_fresh r) by done. cbn [final].
    set (r' := set_auto_tune_map_ _ _).
    assert (Hnew : auto_tune_map_ r' !! algo_type = Some AlgorithmsCache.new).
    { unfold r', set_auto_tune_map_. cbn [auto_tune_map_]. apply lookup_insert_eq. }
    split; [| split; [| split]].
    + unfold r', set_auto_tune_map_. cbn [auto_tune_map_]. apply dom_insert_L.
    + intros name c Hname. unfold r', set_auto_tune_map_. cbn [auto_tune_map_].
      rewrite lookup_insert_ne; [done | congruence].
    + by apply report_totals.
    + apply RegisterOrGet_known. rewrite Hnew. eauto.
Qed.

(** X12. [UpdateStatus] recomputes the totals from the families alone: what the
    totals were before does not enter, so two calls in a row give what one
    gives. *)
Theorem UpdateStatus_recomputes r1 r2 :
  auto_tune_map_ r1 = auto_tune_map_ r2 →
  final (UpdateStatus r1) = final (UpdateStatus r2) ∧
  final (UpdateStatus (final (UpdateStatus r1))) = final (UpdateStatus r1).
Proof.
  intros Hmap. rewrite !UpdateStatus_run. cbn [final auto_tune_map_].
  by rewrite Hmap.
Qed.

(** X13. After a [Clean] that passes the threshold the accessors go on reporting
    the totals of before, and the next [UpdateStatus] brings all of them,
    the hit rate included, to 0. *)
Theorem flush_then_UpdateStatus r miss_rate :
  is_float miss_rate = true → above_0_01 miss_rate = true →
  report (final (Clean miss_rate r)) = report r ∧
  report (final (UpdateStatus (final (Clean miss_rate r)))) = (0, 0, 0, float_zero).
Proof.
  intros Hfloat Habove. rewrite <- (double_gt_above miss_rate Hfloat) in Habove.
  rewrite Clean_above by done. cbn [final]. split; [by apply report_totals |].
  rewrite UpdateStatus_run. unfold set_auto_tune_map_. cbn [final auto_tune_map_].
  rewrite !family_sum_empty. reflexivity.
Qed.

(** X14. [RegisterOrGet] and [Clean] take the mutex of the registry and give it
    back; [UpdateStatus] and the four accessors read the families and the
    totals without any mutex; no call of the registry takes the mutex of a
    family. *)
Theorem registry_mutex_use (op : Op) r :
  events (invoke op r) = if takes_registry_lock op then registry_lock else [].
Proof.
  destruct op as [name|rate| | | | |]; cbn [invoke takes_registry_lock];
    rewrite bind_ret_events; try reflexivity.
  - destruct (auto_tune_map_ r !! name) as [c|] eqn:Hn.
    + by rewrite RegisterOrGet_known by (rewrite Hn; eauto).
    + by rewrite RegisterOrGet_fresh.
  - destruct (double_gt (double_of_float rate) double_0_01) eqn:Hgt.
    + by rewrite Clean_above.
    + by rewrite Clean_below.
  - by rewrite UpdateStatus_run.
  - unfold CacheHitRate, call_const. unfold_run. by destruct (decide _).
Qed.
End RegistryFrames.

Section RegistryHistories.
Import AutoTuneCache.
Implicit Types (r : AutoTuneCache.t) (algo_type : string).

Lemma perform_family_names a r r' algo_type :
  flushes a = false → perform a r = Some r' →
  (is_Some (auto_tune_map_ r' !! algo_type) ↔
     is_Some (auto_tune_map_ r !! algo_type) ∨
     a = ActRegistry (OpRegisterOrGet algo_type)).
Proof.
  intros Hflush. destruct a as [op | [n] op]; cbn [perform].
  - intros [= <-]. destruct op as [name|rate| | | | |]; cbn [invoke];
      rewrite bind_ret_final;
      try (cbn [call_const final]; split; [eauto | intros [? | ?]; [done | discriminate]]).
    + destruct (auto_tune_map_ r !! name) as [c'|] eqn:Hn.
      * rewrite RegisterOrGet_known by (rewrite Hn; eauto). cbn [final].
        split; [eauto |]. intros [? | [= <-]]; [done | by rewrite Hn].
      * rewrite RegisterOrGet_fresh by done.
        unfold set_auto_tune_map_. cbn [final auto_tune_map_].
        destruct (decide (name = algo_type)) as [-> | Hne].
        -- rewrite lookup_insert_eq. split; eauto.
        -- rewrite lookup_insert_ne by done.
           split; [eauto | intros [? | [= ?]]; [done | congruence]].
    + cbn [flushes] in Hflush. rewrite Clean_below by done. cbn [final].
      split; [eauto | intros [? | ?]; [done | discriminate]].
    + rewrite UpdateStatus_run. cbn [final auto_tune_map_].
      split; [eauto | intros [? | ?]; [done | discriminate]].
  - unfold call. destruct (auto_tune_map_ r !! n) as [c'|] eqn:Hn; [| discriminate].
    cbn [fmap option_fmap option_map final]. intros [= <-].
    unfold set_auto_tune_map_. cbn [auto_tune_map_].
    destruct (decide (n = algo_type)) as [-> | Hne].
    + rewrite lookup_insert_eq, Hn. split; [eauto | intros _; eauto].
    + rewrite lookup_insert_ne by done.
      split; [eauto | intros [? | ?]; [done | discriminate]].
Qed.

(** X11. Short of a [Clean] that passes the threshold, a family stays
    registered, and the names registered after a history are those of
    before and those the history passed to [RegisterOrGet]. *)
Theorem families_persist h r r' algo_type :
  forallb (λ a, negb (flushes a)) h = true →
  perform_all h r = Some r' →
  (is_Some (auto_tune_map_ r' !! algo_type) ↔
     is_Some (auto_tune_map_ r !! algo_type) ∨
     ActRegistry (OpRegisterOrGet algo_type) ∈ h).
Proof.
  revert r. induction h as [|a h IH]; intros r Hflush; cbn [perform_all].
  - intros [= <-]. split; [eauto |].
    intros [? | Hin]; [done | by apply elem_of_nil in Hin].
  - cbn [forallb] in Hflush. apply andb_prop in Hflush as [Ha Hh].
    apply negb_true_iff in Ha.
    destruct (perform a r) as [r1|] eqn:Hperform; [| discriminate].
    cbn [mbind option_bind]. intros Hrest.
    rewrite (IH r1 Hh Hrest), (perform_family_names a r r1 algo_type Ha Hperform).
    rewrite elem_of_cons. split.
    + intros [[? | ->] | ?]; eauto.
    + intros [? | [<- | ?]]; eauto.
Qed.
End RegistryHistories.

(** ** The further properties at concrete inputs *)

Section FurtherInstances.
Import AlgorithmsCache.

Lemma CacheHitRate_edges_witness :
  in_int64 (cache_hits_ cache_no_miss) ∧ in_int64 (cache_misses_ cache_no_miss) ∧
  in_int64 (AutoTuneCache.total_cache_hits_ two_families) ∧
  in_int64 (AutoTuneCache.total_cache_misses_ two_families) ∧
  (CacheHitRate cache_no_miss).2 = float_one ∧
  (AutoTuneCache.CacheHitRate two_families).2 = float_zero.
Proof.
  assert (H1 : in_int64 (cache_hits_ cache_no_miss)) by (vm_compute; split; discriminate).
  assert (H2 : in_int64 (cache_misses_ cache_no_miss)) by (vm_compute; split; discriminate).
  assert (H3 : in_int64 (AutoTuneCache.total_cache_hits_ two_families))
    by (vm_compute; split; discriminate).
  assert (H4 : in_int64 (AutoTuneCache.total_cache_misses_ two_families))
    by (vm_compute; split; discriminate).
  do 4 (split; [assumption |]).
  destruct (CacheHitRate_edges cache_no_miss two_families H1 H2 H3 H4)
    as (_ & Hone & Hzero & _).
  split; [apply Hone; [reflexivity | discriminate] | apply Hzero; [reflexivity | discriminate]].
Defined.

Lemma CacheHitRate_not_nan_witness :
  in_int64 (cache_hits_ cache_5_7) ∧
  in_int64 (AutoTuneCache.total_cache_hits_ two_families) ∧
  (CacheHitRate cache_5_7).2 ≠ S754_nan.
Proof.
  assert (H1 : in_int64 (cache_hits_ cache_5_7)) by (vm_compute; split; discriminate).
  assert (H2 : in_int64 (AutoTuneCache.total_cache_hits_ two_families))
    by (vm_compute; split; discriminate).
  split; [exact H1 | split; [exact H2 |]].
  apply (CacheHitRate_not_nan cache_5_7 two_families H1 H2).
Defined.

Lemma empty_vector_collides_witness :
  size_t_wrap (int_hash 0) = 0 ∧
  GetKey Z int_hash [Scalar 3; Vector []; Scalar 5] =
    GetKey Z int_hash [Scalar 3; Scalar 0; Scalar 5].
Proof.
  assert (H0 : size_t_wrap (int_hash 0) = 0) by reflexivity.
  split; [exact H0 |].
  apply (empty_vector_collides int_hash [Scalar 3] [Scalar 5] 0 H0).
Defined.

Lemma Set_leaves_other_keys_witness :
  9 ≠ 5 ∧
  outcome (Find 5 (final (Set_ 0 9 2 cache_5_7))) = outcome (Find 5 cache_5_7).
Proof.
  assert (Hne : 9 ≠ 5) by lia.
  split; [exact Hne |].
  apply (Set_leaves_other_keys 0 cache_5_7 9 5 2 Hne).
Defined.

Lemma Find_calls_counted_witness :
  0 <= cache_hits_ cache_5_7 ∧ 0 <= cache_misses_ cache_5_7 ∧
  cache_hits_ cache_5_7 + cache_misses_ cache_5_7 + count_Find history_calls <= INT64_MAX ∧
  cache_hits_ (run_ops 0 history_calls cache_5_7)
    + cache_misses_ (run_ops 0 history_calls cache_5_7) = 3 + 4 + 3.
Proof.
  assert (H1 : 0 <= cache_hits_ cache_5_7) by (vm_compute; discriminate).
  assert (H2 : 0 <= cache_misses_ cache_5_7) by (vm_compute; discriminate).
  assert (H3 : cache_hits_ cache_5_7 + cache_misses_ cache_5_7 + count_Find history_calls
               <= INT64_MAX) by (vm_compute; discriminate).
  do 3 (split; [assumption |]).
  apply (Find_calls_counted 0 history_calls cache_5_7 H1 H2 H3).
Defined.

Lemma last_Set_wins_witness :
  forallb (λ op, negb (sets_key 9 op)) history_after_Set = true ∧
  outcome (Get 0 9 (run_ops 0 ([OpFind 5] ++ OpSet 9 2 :: history_after_Set) cache_5_7))
    = inr 2.
Proof.
  assert (H2 : forallb (λ op, negb (sets_key 9 op)) history_after_Set = true)
    by (vm_compute; reflexivity).
  split; [exact H2 |].
  apply (last_Set_wins 0 [OpFind 5] history_after_Set cache_5_7 9 2 H2).
Defined.


Lemma UpdateStatus_recomputes_witness :
  AutoTuneCache.auto_tune_map_ two_families_stale
    = AutoTuneCache.auto_tune_map_ two_families ∧
  final (AutoTuneCache.UpdateStatus two_families_stale)
    = final (AutoTuneCache.UpdateStatus two_families).
Proof.
  assert (Hmap : AutoTuneCache.auto_tune_map_ two_families_stale
                 = AutoTuneCache.auto_tune_map_ two_families) by reflexivity.
  split; [exact Hmap |].
  apply (UpdateStatus_recomputes two_families_stale two_families Hmap).
Defined.

Lemma families_persist_witness :
  forallb (λ a, negb (AutoTuneCache.flushes a)) history_pool2d = true ∧
  ∃ r',
    AutoTuneCache.perform_all history_pool2d
      (final (AutoTuneCache.RegisterOrGet "pool2d" two_families)) = Some r' ∧
    is_Some (AutoTuneCache.auto_tune_map_ r' !! "conv2d"%string).
Proof.
  assert (Hflush : forallb (λ a, negb (AutoTuneCache.flushes a)) history_pool2d = true)
    by (vm_compute; reflexivity).
  split; [exact Hflush |].
  destruct (AutoTuneCache.perform_all history_pool2d
              (final (AutoTuneCache.RegisterOrGet "pool2d" two_families)))
    as [r'|] eqn:Hperform; [| vm_compute in Hperform; discriminate].
  exists r'. split; [reflexivity |].
  apply (families_persist history_pool2d _ r' "conv2d" Hflush Hperform).
  left. vm_compute. eauto.
Defined.

Lemma flush_then_UpdateStatus_witness :
  is_float float_0_02 = true ∧ above_0_01 float_0_02 = true ∧
  AutoTuneCache.report
    (final (AutoTuneCache.UpdateStatus
              (final (AutoTuneCache.Clean float_0_02 two_families_stale))))
    = (0, 0, 0, float_zero).
Proof.
  assert (F2 : is_float float_0_02 = true) by (vm_compute; reflexivity).
  assert (A2 : above_0_01 float_0_02 = true) by (vm_compute; reflexivity).
  split; [exact F2 | split; [exact A2 |]].
  apply (flush_then_UpdateStatus two_families_stale float_0_02 F2 A2).
Defined.
End FurtherInstances.
